(** * maptoposter: the data pipeline of [script.js]

    A shallow embedding of the poster generator's core
    ([parseOSMData], [fetchOSMData], [loadTheme], the coordinate caption
    of [drawTypography]) together with the properties its specification
    states about them.

    Conventions of the embedding.
    - A JSON number used as an OSM id is an integer ([Z]); a coordinate is
      the rational value of the double it denotes ([Q]): the classifier
      only copies coordinates, the caption rounds them.
    - [undefined] is [None]; an absent property of an object is [None].
    - A JS object used as a dictionary is a [gmap]; an array is a [list].
    - Tag values are strings, as the Overpass API delivers them. *)

From Stdlib Require Import Ascii QArith Qround Qabs Lqa.
From stdpp Require Import gmap strings list fin_maps sorting.

Local Open Scope string_scope.
Local Open Scope Z_scope.

(** ** Elements of an Overpass response *)

Record GeoPoint := mkPoint { lat : Q; lon : Q }.

(** One entry of [data.elements].  [el_nodes] and [el_tags] are [None]
    when the property is absent; [el_lat] and [el_lon] are only read on
    elements whose type is ['node']. *)
Record Element := mkElement {
  el_type : string;
  el_id : Z;
  el_lat : Q;
  el_lon : Q;
  el_nodes : option (list Z);
  el_tags : option (gmap string string)
}.

Record OsmData := mkData { elements : list Element }.

(** [{ type: el.tags.highway, coords: coords }] *)
Record Road := mkRoad { road_type : string; road_coords : list GeoPoint }.

(** [{ coords: coords }] *)
Record Shape := mkShape { shape_coords : list GeoPoint }.

(** The four arrays the second [forEach] pushes to. *)
Record Buckets := mkBuckets {
  b_roads : list Road;
  b_waterWays : list Shape;
  b_waterPolygons : list Shape;
  b_parks : list Shape
}.

(** The object [parseOSMData] returns. *)
Record Classified := mkClassified {
  roads : list Road;
  waterWays : list Shape;
  waterPolygons : list Shape;
  parks : list Shape;
  nodes : gmap Z GeoPoint
}.

(** ** JavaScript primitives used by the classifier *)

(** Truthiness of a possibly absent string property: [undefined] and the
    empty string are falsy, every other string is truthy. *)
Definition truthy (v : option string) : bool :=
  match v with
  | Some s => negb (String.eqb s EmptyString)
  | None => false
  end.

(** [v === s] for a possibly absent string property [v]. *)
Definition strictEq (v : option string) (s : string) : bool :=
  match v with
  | Some s' => String.eqb s' s
  | None => false
  end.

(** [arr[i]] for an integer index: [undefined] out of range. *)
Definition at_index {A} (arr : list A) (i : Z) : option A :=
  if i <? 0 then None else arr !! Z.to_nat i.

(** [arr.indexOf(x)]: the first index holding [x], [-1] when there is
    none. *)
Fixpoint indexOf_from (x : string) (arr : list string) (i : Z) : Z :=
  match arr with
  | [] => -1
  | y :: rest => if String.eqb y x then i else indexOf_from x rest (i + 1)
  end.

Definition indexOf (arr : list string) (x : string) : Z := indexOf_from x arr 0.

(** [Array.prototype.sort(cmp)].  ECMAScript requires the sort to be
    stable, so for a consistent comparator the result is the one stable
    sorted arrangement of the array; insertion from the right computes
    it.  [sort_insert] puts [x] in front of the first element it does not
    compare greater than, which keeps [x] ahead of its equals. *)
Fixpoint sort_insert {A} (cmp : A -> A -> Z) (x : A) (l : list A) : list A :=
  match l with
  | [] => [x]
  | y :: rest => if cmp x y <=? 0 then x :: y :: rest else y :: sort_insert cmp x rest
  end.

Fixpoint array_sort {A} (cmp : A -> A -> Z) (l : list A) : list A :=
  match l with
  | [] => []
  | x :: rest => sort_insert cmp x (array_sort cmp rest)
  end.

(** ** parseOSMData *)

(** First pass: [nodes[el.id] = { lat: el.lat, lon: el.lon }] for every
    element of type ['node']; a later node with the same id overwrites an
    earlier one. *)
Definition addNode (tbl : gmap Z GeoPoint) (el : Element) : gmap Z GeoPoint :=
  if String.eqb (el_type el) "node"
  then <[el_id el := mkPoint (el_lat el) (el_lon el)]> tbl
  else tbl.

Definition buildNodes (els : list Element) : gmap Z GeoPoint :=
  foldl addNode ∅ els.

(** [el.nodes.map(nodeId => nodes[nodeId]).filter(n => n !== undefined)] *)
Definition defined {A} (n : option A) : bool :=
  match n with Some _ => true | None => false end.

Fixpoint unwrap {A} (l : list (option A)) : list A :=
  match l with
  | [] => []
  | Some a :: rest => a :: unwrap rest
  | None :: rest => unwrap rest
  end.

Definition resolve (tbl : gmap Z GeoPoint) (ids : list Z) : list GeoPoint :=
  unwrap (List.filter defined (List.map (fun nodeId => tbl !! nodeId) ids)).

(** [el.nodes[0] === el.nodes[el.nodes.length - 1]] *)
Definition isClosed (ids : list Z) : bool :=
  bool_decide (at_index ids 0 = at_index ids (Z.of_nat (length ids) - 1)).

(** The body of the second [forEach] callback, with the four arrays
    passed explicitly. *)
Definition classifyElement (tbl : gmap Z GeoPoint) (acc : Buckets) (el : Element) : Buckets :=
  if String.eqb (el_type el) "way" then
    match el_nodes el, el_tags el with
    | Some ids, Some tags =>
      let coords := resolve tbl ids in
      if (length coords <? 2)%nat then acc
      else if truthy (tags !! "highway") then
        mkBuckets (b_roads acc ++ [mkRoad (default EmptyString (tags !! "highway")) coords])
                  (b_waterWays acc) (b_waterPolygons acc) (b_parks acc)
      else if strictEq (tags !! "natural") "water" || truthy (tags !! "waterway") then
        if isClosed ids
        then mkBuckets (b_roads acc) (b_waterWays acc)
                       (b_waterPolygons acc ++ [mkShape coords]) (b_parks acc)
        else mkBuckets (b_roads acc) (b_waterWays acc ++ [mkShape coords])
                       (b_waterPolygons acc) (b_parks acc)
      else if strictEq (tags !! "leisure") "park" || strictEq (tags !! "landuse") "grass" then
        if isClosed ids
        then mkBuckets (b_roads acc) (b_waterWays acc) (b_waterPolygons acc)
                       (b_parks acc ++ [mkShape coords])
        else acc
      else acc
    | _, _ => acc
    end
  else acc.

Definition noBuckets : Buckets := mkBuckets [] [] [] [].

Definition classifyAll (tbl : gmap Z GeoPoint) (els : list Element) : Buckets :=
  foldl (classifyElement tbl) noBuckets els.

Definition roadOrder : list string :=
  ["service"; "living_street"; "unclassified"; "residential";
   "tertiary_link"; "tertiary"; "secondary_link"; "secondary";
   "primary_link"; "primary"; "trunk_link"; "trunk";
   "motorway_link"; "motorway"].

(** The priority of a road: the position of its subtype in [roadOrder],
    or [-1] for a subtype that is not in it. *)
Definition roadPriority (r : Road) : Z := indexOf roadOrder (road_type r).

(** [(a, b) => roadOrder.indexOf(a.type) - roadOrder.indexOf(b.type)] *)
Definition roadCompare (a b : Road) : Z :=
  indexOf roadOrder (road_type a) - indexOf roadOrder (road_type b).

Definition parseOSMData (data : OsmData) : Classified :=
  let tbl := buildNodes (elements data) in
  let b := classifyAll tbl (elements data) in
  mkClassified (array_sort roadCompare (b_roads b))
               (b_waterWays b) (b_waterPolygons b) (b_parks b) tbl.

(** ** A per-way reading of the classifier

    The definitions of this part are not in the source: they name what
    the cascade of conditionals in [classifyElement] decides, so that the
    properties below can speak about one way at a time.
    [classifyElement_category] relates them to the code. *)

(** The tests of the three branches. *)
Definition roadTagged (tags : gmap string string) : bool :=
  truthy (tags !! "highway").

Definition waterTagged (tags : gmap string string) : bool :=
  strictEq (tags !! "natural") "water" || truthy (tags !! "waterway").

Definition parkTagged (tags : gmap string string) : bool :=
  strictEq (tags !! "leisure") "park" || strictEq (tags !! "landuse") "grass".

(** [el.nodes] as a list, empty when the property is absent. *)
Definition memberIds (el : Element) : list Z := default [] (el_nodes el).

Inductive Category := CRoad | CWaterLine | CWaterPolygon | CPark.

Global Instance Category_eq_dec : EqDecision Category.
Proof. solve_decision. Defined.

(** The array an element is pushed to, if any. *)
Definition categoryOf (tbl : gmap Z GeoPoint) (el : Element) : option Category :=
  if String.eqb (el_type el) "way" then
    match el_nodes el, el_tags el with
    | Some ids, Some tags =>
      if (length (resolve tbl ids) <? 2)%nat then None
      else if roadTagged tags then Some CRoad
      else if waterTagged tags then
        Some (if isClosed ids then CWaterPolygon else CWaterLine)
      else if parkTagged tags then
        (if isClosed ids then Some CPark else None)
      else None
    | _, _ => None
    end
  else None.

(** The shape an element adds to the array of category [c]. *)
Definition shapeOf (tbl : gmap Z GeoPoint) (c : Category) (el : Element) : option Shape :=
  if decide (categoryOf tbl el = Some c)
  then Some (mkShape (resolve tbl (memberIds el)))
  else None.

(** [acc] with one more road, water line, water polygon or park. *)
Definition pushRoad (acc : Buckets) (r : Road) : Buckets :=
  mkBuckets (b_roads acc ++ [r]) (b_waterWays acc) (b_waterPolygons acc) (b_parks acc).

Definition pushWaterWay (acc : Buckets) (s : Shape) : Buckets :=
  mkBuckets (b_roads acc) (b_waterWays acc ++ [s]) (b_waterPolygons acc) (b_parks acc).

Definition pushWaterPolygon (acc : Buckets) (s : Shape) : Buckets :=
  mkBuckets (b_roads acc) (b_waterWays acc) (b_waterPolygons acc ++ [s]) (b_parks acc).

Definition pushPark (acc : Buckets) (s : Shape) : Buckets :=
  mkBuckets (b_roads acc) (b_waterWays acc) (b_waterPolygons acc) (b_parks acc ++ [s]).

(** ** Number formatting: [Number.prototype.toFixed]

    ECMAScript defines [toFixed] on the exact real value of the number.
    Below [10^21] it takes the integer [n] for which [n / 10^f - x] is
    closest to zero (the larger one on a tie), writes the decimal digits
    of [n], pads them with zeros to [f + 1] characters and puts the point
    in front of the last [f] characters. *)

Definition digitChar (d : Z) : ascii := ascii_of_nat (48 + Z.to_nat d).

Definition char (c : ascii) : string := String c EmptyString.

(** The decimal digits of a non-negative integer, most significant
    first. *)
Fixpoint digits_fuel (fuel : nat) (n : Z) : string :=
  match fuel with
  | O => EmptyString
  | S k =>
    if n <? 10 then char (digitChar n)
    else digits_fuel k (n / 10) ++ char (digitChar (n mod 10))
  end.

Definition decimalDigits (n : Z) : string :=
  digits_fuel (S (Z.to_nat (Z.log2 n))) n.

Fixpoint zeros (k : nat) : string :=
  match k with
  | O => EmptyString
  | S k' => String "0" (zeros k')
  end.

(** Step 5 of [toFixed]: for [x >= 0] the integer nearest to [x * 10^f],
    the larger of the two when [x * 10^f] lies half way. *)
Definition nearestScaled (x : Q) (f : nat) : Z :=
  Qfloor (x * inject_Z (10 ^ Z.of_nat f) + (1 # 2)).

Definition Qlt_bool (x y : Q) : bool := negb (Qle_bool y x).

Section NumberFormat.

(** [Number::toString], which [toFixed] falls back to from [10^21] on.
    It is not modelled: the caption is stated below that bound. *)
Variable numberToString : Q -> string.

Definition toFixed (x : Q) (f : nat) : string :=
  let s := if Qlt_bool x 0 then "-" else EmptyString in
  let x := if Qlt_bool x 0 then Qopp x else x in
  let m :=
    if Qle_bool (inject_Z (10 ^ 21)) x then numberToString x
    else
      let n := nearestScaled x f in
      let m := if n =? 0 then "0" else decimalDigits n in
      if (f =? 0)%nat then m
      else
        let k := String.length m in
        let m' := if (k <=? f)%nat then zeros (f + 1 - k) ++ m else m in
        let k' := if (k <=? f)%nat then (f + 1)%nat else k in
        let a := String.substring 0 (k' - f) m' in
        let b := String.substring (k' - f) f m' in
        a ++ "." ++ b
  in s ++ m.

(** The degree sign U+00B0, as its two UTF-8 bytes. *)
Definition degreeSign : string :=
  String (ascii_of_nat 194) (String (ascii_of_nat 176) EmptyString).

(** Lines 427-429 of [drawTypography]: the caption under the country
    name. *)
Definition coordsText (lat lon : Q) : string :=
  let latDir := if Qle_bool 0 lat then "N" else "S" in
  let lonDir := if Qle_bool 0 lon then "E" else "W" in
  toFixed (Qabs lat) 4 ++ degreeSign ++ " " ++ latDir ++ " / "
    ++ toFixed (Qabs lon) 4 ++ degreeSign ++ " " ++ lonDir.

End NumberFormat.

(** What the specification calls "formatted to 4 decimal places": the
    value rounded to the nearest multiple of [1/10000], written as its
    integer part, a point, and the four digits of its fractional part. *)
Definition fourDecimals (x : Q) : string :=
  let r := nearestScaled x 4 in
  decimalDigits (r / 10000) ++ "."
    ++ char (digitChar (r / 1000 mod 10)) ++ char (digitChar (r / 100 mod 10))
    ++ char (digitChar (r / 10 mod 10)) ++ char (digitChar (r mod 10)).

(** The caption as the specification words it:
    [{|lat|:4 decimals}° {N|S} / {|lon|:4 decimals}° {E|W}], with [N] and
    [E] for a non-negative value and [S] and [W] for a negative one. *)
Definition hemisphere (v : Q) (nonneg neg : string) : string :=
  if Qlt_le_dec v 0 then neg else nonneg.

Definition captionSpec (lat lon : Q) : string :=
  fourDecimals (Qabs lat) ++ degreeSign ++ " " ++ hemisphere lat "N" "S"
    ++ " / "
    ++ fourDecimals (Qabs lon) ++ degreeSign ++ " " ++ hemisphere lon "E" "W".

(** The last [k] decimal digits of [n], most significant first. *)
Fixpoint lastDigits (k : nat) (n : Z) : string :=
  match k with
  | O => EmptyString
  | S k' => lastDigits k' (n / 10) ++ char (digitChar (n mod 10))
  end.

(** The number a string of decimal digits denotes. *)
Fixpoint digitsValue_acc (s : string) (acc : Z) : Z :=
  match s with
  | EmptyString => acc
  | String c rest => digitsValue_acc rest (10 * acc + (Z.of_nat (nat_of_ascii c) - 48))
  end.

Definition digitsValue (s : string) : Z := digitsValue_acc s 0.

(** ** Network and console effects

    [loadTheme] and [fetchOSMData] are [async] functions that suspend on
    one network call at a time, so they are sequential programs over the
    state of the outside world.  They are embedded in a state monad with
    exceptions: a computation takes the state and returns either the
    thrown [Error] or a value, together with the new state. *)

(** An [Error] object; only its [message] is ever read. *)
Record JsError := mkError { message : string }.

(** What the code reads of a [Response]: [ok], [status] and the outcome
    of [response.json()], which rejects on a body that is not JSON. *)
Record Response (A : Type) := mkResponse {
  ok : bool;
  status : Z;
  json : JsError + A
}.
Arguments mkResponse {A} _ _ _.
Arguments ok {A} _.
Arguments status {A} _.
Arguments json {A} _.

(** A theme file is a JSON object of colour strings. *)
Abbreviation Theme := (gmap string string).

(** The JSON an Overpass server answered with: either an element graph,
    or a value [parseOSMData] throws [e] on (no [elements] array, a
    [null] element, ...). *)
Inductive OverpassJson :=
  | Graph (d : OsmData)
  | IllShaped (e : JsError).

(** The observable actions, in the order they happen. *)
Inductive Event :=
  | EvFetch (url : string)
  | EvLoadingText (text : string)
  | EvConsoleWarn (text detail : string)
  | EvConsoleError (text : string) (e : JsError).

Record State (World : Type) := mkState {
  world : World;
  currentTheme : option Theme;
  events : list Event
}.
Arguments mkState {World} _ _ _.
Arguments world {World} _.
Arguments currentTheme {World} _.
Arguments events {World} _.

Definition M (World A : Type) : Type := State World -> (JsError + A) * State World.

Section Monad.
Context {World : Type}.

Definition ret {A} (a : A) : M World A := fun st => (inr a, st).

Definition throw {A} (e : JsError) : M World A := fun st => (inl e, st).

Definition bind {A B} (m : M World A) (k : A -> M World B) : M World B :=
  fun st =>
    match m st with
    | (inl e, st') => (inl e, st')
    | (inr a, st') => k a st'
    end.

(** [try { body } catch (error) { handler }] *)
Definition try_catch {A} (body : M World A) (handler : JsError -> M World A) : M World A :=
  fun st =>
    match body st with
    | (inl e, st') => handler e st'
    | (inr a, st') => (inr a, st')
    end.

Definition emit (ev : Event) : M World unit :=
  fun st => (inr tt, mkState (world st) (currentTheme st) (events st ++ [ev])).

Definition setCurrentTheme (t : Theme) : M World unit :=
  fun st => (inr tt, mkState (world st) (Some t) (events st)).

(** [await p] for a promise that settles to [r]. *)
Definition await {A} (r : JsError + A) : M World A :=
  match r with
  | inl e => throw e
  | inr a => ret a
  end.
End Monad.

Notation "x <- m ;; k" := (bind m (fun x => k))
  (at level 100, m at next level, right associativity).
Notation "m ;;; k" := (bind m (fun _ => k))
  (at level 100, right associativity).

Definition CONFIG_OVERPASS_SERVERS : list string :=
  ["https://overpass-api.de/api/interpreter";
   "https://overpass.kumi.systems/api/interpreter";
   "https://maps.mail.ru/osm/tools/overpass/api/interpreter"].

(** The fallback theme of [loadTheme]'s [catch] block. *)
Definition fallbackTheme : Theme :=
  list_to_map
    [("name", "Default"); ("bg", "#FFFFFF"); ("text", "#000000");
     ("gradient_color", "#FFFFFF"); ("water", "#C0C0C0"); ("parks", "#F0F0F0");
     ("road_motorway", "#0A0A0A"); ("road_primary", "#1A1A1A");
     ("road_secondary", "#2A2A2A"); ("road_tertiary", "#3A3A3A");
     ("road_residential", "#4A4A4A"); ("road_default", "#3A3A3A")].

(** The keys the specification requires of a theme object. *)
Definition requiredThemeKeys : list string :=
  ["bg"; "text"; "gradient_color"; "water"; "parks"; "road_motorway";
   "road_primary"; "road_secondary"; "road_tertiary"; "road_residential";
   "road_default"].

(** [lastError?.message || 'All servers unavailable'] *)
Definition lastErrorText (lastError : option JsError) : string :=
  match lastError with
  | Some e => if String.eqb (message e) EmptyString
              then "All servers unavailable" else message e
  | None => "All servers unavailable"
  end.

Definition allFailedError (lastError : option JsError) : JsError :=
  mkError ("Failed to fetch map data. Please try again in a moment. ("
           ++ lastErrorText lastError ++ ")").

Section Pipeline.
Context {World : Type}.

(** [fetch(url)] of a theme file and [fetch(serverUrl, { method: 'POST',
    body })] of an Overpass query: the promise rejects with an error or
    resolves to a response, and the world moves on. *)
Variable http_get_theme : string -> World -> (JsError + Response Theme) * World.
Variable http_post_overpass :
  string -> string -> World -> (JsError + Response OverpassJson) * World.

Definition fetchTheme (url : string) : M World (Response Theme) :=
  fun st =>
    let (r, w) := http_get_theme url (world st) in
    (r, mkState w (currentTheme st) (events st ++ [EvFetch url])).

Definition fetchOverpass (url body : string) : M World (Response OverpassJson) :=
  fun st =>
    let (r, w) := http_post_overpass url body (world st) in
    (r, mkState w (currentTheme st) (events st ++ [EvFetch url])).

Definition loadTheme (themeName : string) : M World Theme :=
  try_catch
    (response <- fetchTheme ("themes/" ++ themeName ++ ".json") ;;
     if negb (ok response)
     then throw (mkError ("Theme '" ++ themeName ++ "' not found"))
     else
       theme <- await (json response) ;;
       setCurrentTheme theme ;;;
       ret theme)
    (fun error =>
       emit (EvConsoleError "Error loading theme:" error) ;;;
       setCurrentTheme fallbackTheme ;;;
       ret fallbackTheme).

(** [parseOSMData(data)] on whatever JSON the server sent. *)
Definition parseOSMData_json (data : OverpassJson) : M World Classified :=
  match data with
  | Graph d => ret (parseOSMData d)
  | IllShaped e => throw e
  end.

(** The [try] block of the server loop: one attempt at one server. *)
Definition attempt (serverUrl body : string) : M World Classified :=
  emit (EvLoadingText "Fetching map data...") ;;;
  response <- fetchOverpass serverUrl body ;;
  if negb (ok response)
  then throw (mkError ("Server returned " ++ decimalDigits (status response)))
  else
    data <- await (json response) ;;
    parseOSMData_json data.

(** The [for ... of] loop over the servers with its [lastError]
    variable, and the [throw] after it. *)
Fixpoint tryServers (servers : list string) (body : string)
         (lastError : option JsError) : M World Classified :=
  match servers with
  | [] => throw (allFailedError lastError)
  | serverUrl :: rest =>
    try_catch (attempt serverUrl body)
      (fun error =>
         emit (EvConsoleWarn ("Overpass server " ++ serverUrl ++ " failed:")
                             (message error)) ;;;
         tryServers rest body (Some error))
  end.

(** [fetchOSMData]; [body] is the request body
    [`data=${encodeURIComponent(query)}`] built from the centre and the
    radius. *)
Definition fetchOSMData (body : string) : M World Classified :=
  tryServers CONFIG_OVERPASS_SERVERS body None.

(** The URLs fetched, in order. *)
Definition fetched (evs : list Event) : list string :=
  omap (fun ev => match ev with EvFetch url => Some url | _ => None end) evs.

(** The [catch] block of the loop: the warning on the console. *)
Definition warned (serverUrl : string) (error : JsError) (st : State World) : State World :=
  mkState (world st) (currentTheme st)
          (events st ++ [EvConsoleWarn ("Overpass server " ++ serverUrl ++ " failed:")
                                       (message error)]).

(** The loop run over [servers] when every attempt fails: the value of
    [lastError] and the state at the end; [None] as soon as an attempt
    succeeds. *)
Fixpoint failRun (servers : list string) (body : string)
         (lastError : option JsError) (st : State World)
  : option (option JsError * State World) :=
  match servers with
  | [] => Some (lastError, st)
  | serverUrl :: rest =>
    match attempt serverUrl body st with
    | (inl error, st') => failRun rest body (Some error) (warned serverUrl error st')
    | (inr _, _) => None
    end
  end.

(** What one attempt at [serverUrl] comes to, given what the network
    answered. *)
Definition attemptResult (r : JsError + Response OverpassJson) : JsError + Classified :=
  match r with
  | inl e => inl e
  | inr response =>
    if negb (ok response)
    then inl (mkError ("Server returned " ++ decimalDigits (status response)))
    else match json response with
         | inl e => inl e
         | inr (Graph d) => inr (parseOSMData d)
         | inr (IllShaped e) => inl e
         end
  end.

End Pipeline.

(** ** Vocabulary of the statements *)

(** The way carries tag [k] with a non-empty value: [el.tags[k]] is
    truthy. *)
Definition hasTag (tags : gmap string string) (k : string) : Prop :=
  exists v, tags !! k = Some v /\ v ≠ EmptyString.

(** The arrays of [b] appended to those of [a]. *)
Definition bappend (a b : Buckets) : Buckets :=
  mkBuckets (b_roads a ++ b_roads b) (b_waterWays a ++ b_waterWays b)
            (b_waterPolygons a ++ b_waterPolygons b) (b_parks a ++ b_parks b).

(** [output] lists results of [f] on [input] in the order of [input]:
    two entries of [output] come from two entries of [input] that stand
    in the same order. *)
Definition keepsInputOrder {A B} (f : A -> option B) (input : list A) (output : list B) : Prop :=
  forall i j y z,
    output !! i = Some y -> output !! j = Some z -> (i < j)%nat ->
    exists i' j' a b,
      input !! i' = Some a /\ input !! j' = Some b /\
      f a = Some y /\ f b = Some z /\ (i' < j')%nat.

(** ** Scenario inputs *)

Definition node_el (i : Z) (la lo : Q) : Element :=
  mkElement "node" i la lo None None.

Definition way_el (i : Z) (ids : list Z) (tags : list (string * string)) : Element :=
  mkElement "way" i 0 0 (Some ids) (Some (list_to_map tags)).

Definition two_nodes : list Element :=
  [node_el 1 52 13; node_el 2 (5201 # 100) (1301 # 100)].

Definition primary_way : Element := way_el 10 [1; 2] [("highway", "primary")].

(** The scenario graph of the specification: two nodes and one way
    tagged [highway=primary]. *)
Definition scenario_primary : OsmData := mkData (two_nodes ++ [primary_way]).

(** A way of which only one member node is in the graph. *)
Definition dangling_way : Element :=
  way_el 11 [1; 99] [("highway", "residential")].

(** A relation tagged as a park. *)
Definition park_relation : Element :=
  mkElement "relation" 20 0 0 (Some [1; 2; 1]) (Some (list_to_map [("leisure", "park")])).

(** An open stream and an open strip of grass. *)
Definition open_stream : Element := way_el 12 [1; 2] [("waterway", "stream")].
Definition open_grass : Element := way_el 13 [1; 2] [("landuse", "grass")].

(** A way whose [highway] tag has the empty string as its value, and
    that is also tagged as water. *)
Definition empty_highway_way : Element :=
  way_el 14 [1; 2] [("highway", EmptyString); ("natural", "water")].

(** The closed-ring scenario of the specification: a way [1, 2, 3, 1]
    tagged [natural=water]. *)
Definition scenario_pond : OsmData :=
  mkData [ node_el 1 52 13; node_el 2 (5201 # 100) 13; node_el 3 (5201 # 100) (1301 # 100);
           way_el 15 [1; 2; 3; 1] [("natural", "water")] ].

(** ** Worlds for worked runs *)

(** A world that hands out a fixed list of answers, one per call, and
    refuses every call after the last. *)
Definition scripted {A} (url : string) (w : list (JsError + Response A))
  : (JsError + Response A) * list (JsError + Response A) :=
  match w with
  | r :: w' => (r, w')
  | [] => (inl (mkError "Failed to fetch"), [])
  end.

Definition scripted_post {A} (url body : string) (w : list (JsError + Response A))
  : (JsError + Response A) * list (JsError + Response A) :=
  scripted url w.

(** A theme file with every required key but [water]. *)
Definition theme_without_water : Theme :=
  list_to_map
    [("name", "Noir"); ("bg", "#000000"); ("text", "#FFFFFF");
     ("gradient_color", "#000000"); ("parks", "#101010");
     ("road_motorway", "#FFFFFF"); ("road_primary", "#E0E0E0");
     ("road_secondary", "#C0C0C0"); ("road_tertiary", "#A0A0A0");
     ("road_residential", "#808080"); ("road_default", "#808080")].

(** The first server is unreachable, the second answers 503, the third
    answers with the scenario graph. *)
Definition two_down_one_up : list (JsError + Response OverpassJson) :=
  [inl (mkError "Failed to fetch");
   inr (mkResponse false 503 (inl (mkError "Unexpected token < in JSON")));
   inr (mkResponse true 200 (inr (Graph scenario_primary)))].

(** No server answers with a graph: the first two are unreachable, the
    third answers 504. *)
Definition all_down : list (JsError + Response OverpassJson) :=
  [inl (mkError "Failed to fetch");
   inl (mkError "Failed to fetch");
   inr (mkResponse false 504 (inl (mkError "Unexpected end of JSON input")))].

Definition initialState {World} (w : World) : State World := mkState w None [].

(** * Further vocabulary *)

(** [el.type === 'node'] *)
Definition isNode (el : Element) : bool := String.eqb (el_type el) "node".

(** The road an element adds to the roads array. *)
Definition roadOf (tbl : gmap Z GeoPoint) (el : Element) : option Road :=
  if decide (categoryOf tbl el = Some CRoad)
  then Some (mkRoad (default EmptyString (default ∅ (el_tags el) !! "highway"))
                    (resolve tbl (memberIds el)))
  else None.

(** The point of a node element. *)
Definition pointOf (el : Element) : GeoPoint := mkPoint (el_lat el) (el_lon el).

(** The node elements of the input that carry id [i]. *)
Definition nodesWithId (i : Z) (els : list Element) : list Element :=
  List.filter (fun el => isNode el && (el_id el =? i)) els.

(** The number of elements of type ['way']. *)
Definition wayCount (els : list Element) : nat :=
  length (List.filter (fun el => String.eqb (el_type el) "way") els).

(** * Drawing

    The drawing functions only talk to the 2D context.  They are embedded
    as functions that return the list of context operations they perform,
    in order: assignments to properties of [ctx] and calls of its
    methods.  What the canvas makes of an operation is not modelled. *)

(** The values the drawing code hands to the context: [undefined], a
    string, a number, or a member inherited from [Object.prototype],
    which is what the lookup [obj[key]] on an object literal finds for a
    key such as ['constructor']. *)
Inductive JsVal :=
  | VUndefined
  | VString (s : string)
  | VNumber (q : Q)
  | VInherited (name : string).

(** The property names every object literal inherits. *)
Definition objectPrototypeKeys : list string :=
  ["constructor"; "hasOwnProperty"; "isPrototypeOf"; "propertyIsEnumerable";
   "toLocaleString"; "toString"; "valueOf"; "__proto__";
   "__defineGetter__"; "__defineSetter__"; "__lookupGetter__"; "__lookupSetter__"].

(** [obj[key]] on an object literal with the own properties [own]. *)
Definition literalLookup (own : list (string * JsVal)) (key : string) : JsVal :=
  match (list_to_map own : gmap string JsVal) !! key with
  | Some v => v
  | None => if bool_decide (key ∈ objectPrototypeKeys) then VInherited key else VUndefined
  end.

(** Truthiness, and [a || b]. *)
Definition truthyVal (v : JsVal) : bool :=
  match v with
  | VUndefined => false
  | VString s => negb (String.eqb s EmptyString)
  | VNumber q => negb (Qeq_bool q 0)
  | VInherited _ => true
  end.

Definition jsOr (a b : JsVal) : JsVal := if truthyVal a then a else b.

(** [theme.key] for a theme object. *)
Definition themeValue (theme : Theme) (key : string) : JsVal :=
  match theme !! key with
  | Some s => VString s
  | None => VUndefined
  end.

(** The constant [ROAD_WIDTHS]. *)
Definition ROAD_WIDTHS : list (string * JsVal) :=
  [("motorway", VNumber (35 # 10)); ("motorway_link", VNumber 3);
   ("trunk", VNumber 3); ("trunk_link", VNumber (25 # 10));
   ("primary", VNumber (25 # 10)); ("primary_link", VNumber 2);
   ("secondary", VNumber 2); ("secondary_link", VNumber (15 # 10));
   ("tertiary", VNumber (15 # 10)); ("tertiary_link", VNumber (12 # 10));
   ("residential", VNumber 1); ("living_street", VNumber (8 # 10));
   ("unclassified", VNumber (8 # 10)); ("service", VNumber (5 # 10));
   ("default", VNumber (8 # 10))].

(** [getRoadColor], with [currentTheme] passed as [theme]. *)
Definition getRoadColor (theme : Theme) (roadType : string) : JsVal :=
  let colorMap :=
      [("motorway", themeValue theme "road_motorway");
       ("motorway_link", themeValue theme "road_motorway");
       ("trunk", themeValue theme "road_primary");
       ("trunk_link", themeValue theme "road_primary");
       ("primary", themeValue theme "road_primary");
       ("primary_link", themeValue theme "road_primary");
       ("secondary", themeValue theme "road_secondary");
       ("secondary_link", themeValue theme "road_secondary");
       ("tertiary", themeValue theme "road_tertiary");
       ("tertiary_link", themeValue theme "road_tertiary");
       ("residential", themeValue theme "road_residential");
       ("living_street", themeValue theme "road_residential");
       ("unclassified", themeValue theme "road_residential");
       ("service", themeValue theme "road_default")] in
  jsOr (literalLookup colorMap roadType) (themeValue theme "road_default").

(** [ROAD_WIDTHS[road.type] || ROAD_WIDTHS.default] *)
Definition roadWidth (roadType : string) : JsVal :=
  jsOr (literalLookup ROAD_WIDTHS roadType) (literalLookup ROAD_WIDTHS "default").

Section Drawing.
(** A point of the surface, and the function [createProjection] returns.
    The projection computes with floating point numbers; the drawing
    functions receive it as an argument and only pass its results on. *)
Context {Planar : Type}.
Variable project : Q -> Q -> Planar.

Inductive CanvasOp :=
  | SetFillStyle (v : JsVal)
  | SetStrokeStyle (v : JsVal)
  | SetLineWidth (v : JsVal)
  | SetLineCap (s : string)
  | SetLineJoin (s : string)
  | BeginPath
  | MoveTo (p : Planar)
  | LineTo (p : Planar)
  | ClosePath
  | Fill
  | Stroke
  | FillRect (x y w h : Q).

(** [for (let i = ...; i < coords.length; i++) { ctx.lineTo(project(coords[i])) }];
    [fuel] bounds the number of iterations. *)
Fixpoint lineToLoop (fuel : nat) (coords : list GeoPoint) (i : nat) : list CanvasOp :=
  match fuel with
  | O => []
  | S fuel' =>
    if (i <? length coords)%nat then
      match coords !! i with
      | Some c => LineTo (project (lat c) (lon c)) :: lineToLoop fuel' coords (S i)
      | None => []
      end
    else []
  end.

(** [ctx.beginPath()], [ctx.moveTo] to the first point, the loop from
    index 1.  The callers have checked that there is a first point. *)
Definition tracePath (coords : list GeoPoint) : list CanvasOp :=
  match coords !! 0%nat with
  | Some start =>
    BeginPath :: MoveTo (project (lat start) (lon start))
      :: lineToLoop (length coords) coords 1
  | None => [BeginPath]
  end.

Definition drawPolygon (polygon : Shape) : list CanvasOp :=
  if (length (shape_coords polygon) <? 3)%nat then []
  else tracePath (shape_coords polygon) ++ [ClosePath; Fill].

Definition drawPolygons (polygons : list Shape) (color : JsVal) : list CanvasOp :=
  SetFillStyle color :: concat (map drawPolygon polygons).

Definition drawWaterway (way : Shape) : list CanvasOp :=
  if (length (shape_coords way) <? 2)%nat then []
  else tracePath (shape_coords way) ++ [Stroke].

Definition drawWaterways (ways : list Shape) (color : JsVal) : list CanvasOp :=
  [SetStrokeStyle color; SetLineWidth (VNumber 2); SetLineCap "round"; SetLineJoin "round"]
    ++ concat (map drawWaterway ways).

Definition drawRoad (theme : Theme) (road : Road) : list CanvasOp :=
  if (length (road_coords road) <? 2)%nat then []
  else [SetStrokeStyle (getRoadColor theme (road_type road));
        SetLineWidth (roadWidth (road_type road))]
         ++ tracePath (road_coords road) ++ [Stroke].

Definition drawRoads (theme : Theme) (roads : list Road) : list CanvasOp :=
  [SetLineCap "round"; SetLineJoin "round"] ++ concat (map (drawRoad theme) roads).

(** The line widths set, the paths stroked and the paths filled, read
    off a list of operations. *)
Definition lineWidthsSet (ops : list CanvasOp) : list JsVal :=
  omap (fun op => match op with SetLineWidth v => Some v | _ => None end) ops.

Definition strokeCount (ops : list CanvasOp) : nat :=
  length (List.filter (fun op => match op with Stroke => true | _ => false end) ops).

Definition fillCount (ops : list CanvasOp) : nat :=
  length (List.filter (fun op => match op with Fill => true | _ => false end) ops).

End Drawing.

Arguments CanvasOp : clear implicits.

(** The number a width value holds, when it is one. *)
Definition widthNumber (v : JsVal) : option Q :=
  match v with VNumber q => Some q | _ => None end.

(** * Colour strings: [hexToRGBA]

    Strings in this part are ASCII, one character per code unit. *)

(** The value of a hexadecimal digit. *)
Definition hexDigitValue (c : ascii) : option Z :=
  let n := Z.of_nat (nat_of_ascii c) in
  if (48 <=? n) && (n <=? 57) then Some (n - 48)
  else if (97 <=? n) && (n <=? 102) then Some (n - 87)
  else if (65 <=? n) && (n <=? 70) then Some (n - 55)
  else None.

(** The ASCII white space [parseInt] skips: TAB, LF, VT, FF, CR, SP. *)
Definition isAsciiSpace (c : ascii) : bool :=
  let n := Z.of_nat (nat_of_ascii c) in
  ((9 <=? n) && (n <=? 13)) || (n =? 32).

Fixpoint skipSpace (s : string) : string :=
  match s with
  | String c rest => if isAsciiSpace c then skipSpace rest else s
  | EmptyString => s
  end.

(** The value of the longest prefix of hexadecimal digits, [None] when
    the string does not start with one. *)
Fixpoint hexRun (s : string) (acc : option Z) : option Z :=
  match s with
  | String c rest =>
    match hexDigitValue c with
    | Some d => hexRun rest (Some (16 * default 0 acc + d))
    | None => acc
    end
  | EmptyString => acc
  end.

(** [parseInt(s, 16)]: white space, an optional sign, an optional [0x]
    or [0X], then hexadecimal digits up to the first other character;
    [None] is [NaN]. *)
Definition parseInt16 (s : string) : option Z :=
  let s1 := skipSpace s in
  let sign := match s1 with
              | String c _ => if Ascii.eqb c "-" then -1 else 1
              | EmptyString => 1
              end in
  let s2 := match s1 with
            | String c rest => if Ascii.eqb c "-" || Ascii.eqb c "+" then rest else s1
            | EmptyString => s1
            end in
  let s3 := match s2 with
            | String c (String x rest) =>
              if Ascii.eqb c "0" && (Ascii.eqb x "x" || Ascii.eqb x "X") then rest else s2
            | _ => s2
            end in
  match hexRun s3 None with
  | Some v => Some (sign * v)
  | None => None
  end.

(** [s.slice(i, j)] for [0 <= i <= j]. *)
Definition slice (i j : nat) (s : string) : string := String.substring i (j - i) s.

(** A number in a template literal: an integer, or [NaN]. *)
Definition numberText (v : option Z) : string :=
  match v with
  | None => "NaN"
  | Some z => if z <? 0 then "-" ++ decimalDigits (- z) else decimalDigits z
  end.

(** [hexToRGBA(hex, alpha)] for an integer [alpha]; the only call passes
    0. *)
Definition hexToRGBA (hex : string) (alpha : Z) : string :=
  let r := parseInt16 (slice 1 3 hex) in
  let g := parseInt16 (slice 3 5 hex) in
  let b := parseInt16 (slice 5 7 hex) in
  "rgba(" ++ numberText r ++ ", " ++ numberText g ++ ", " ++ numberText b ++ ", "
    ++ numberText (Some alpha) ++ ")".

(** * Geocoding *)

(** One entry of the array Nominatim answers with; [lat] and [lon] are
    strings. *)
Record GeocodeHit := mkHit {
  hit_lat : string;
  hit_lon : string;
  hit_display_name : string
}.

(** The object [geocode] returns; [Num] is the type of the numbers
    [parseFloat] returns. *)
Record Location (Num : Type) := mkLocation {
  loc_lat : Num;
  loc_lon : Num;
  loc_displayName : string
}.
Arguments mkLocation {Num} _ _ _.
Arguments loc_lat {Num} _.
Arguments loc_lon {Num} _.
Arguments loc_displayName {Num} _.

Definition CONFIG_NOMINATIM_URL : string := "https://nominatim.openstreetmap.org/search".

Section Geocode.
Context {World Num : Type}.

(** The built-ins [encodeURIComponent] and [parseFloat], and the network:
    the body of the answer is [null] or an array of hits. *)
Variable encodeURIComponent : string -> string.
Variable parseFloat : string -> Num.
Variable http_get_nominatim :
  string -> World -> (JsError + Response (option (list GeocodeHit))) * World.

Definition fetchNominatim (url : string) : M World (Response (option (list GeocodeHit))) :=
  fun st =>
    let (r, w) := http_get_nominatim url (world st) in
    (r, mkState w (currentTheme st) (events st ++ [EvFetch url])).

Definition geocodeUrl (city country : string) : string :=
  CONFIG_NOMINATIM_URL ++ "?q=" ++ encodeURIComponent (city ++ ", " ++ country)
    ++ "&format=json&limit=1".

Definition geocode (city country : string) : M World (Location Num) :=
  response <- fetchNominatim (geocodeUrl city country) ;;
  if negb (ok response)
  then throw (mkError ("Geocoding request failed (" ++ decimalDigits (status response) ++ ")"))
  else
    data <- await (json response) ;;
    match data with
    | None | Some [] =>
      throw (mkError ("Could not find location: " ++ city ++ ", " ++ country))
    | Some (hit :: _) =>
      ret (mkLocation (parseFloat (hit_lat hit)) (parseFloat (hit_lon hit))
                      (hit_display_name hit))
    end.

End Geocode.

(** * The download name

    [downloadPoster] builds the file name out of three strings with
    regular expressions that work on code units.  In this part a string
    is the list of its UTF-16 code units. *)

(** The code units [\s] matches: the white space and line terminators of
    ECMAScript. *)
Definition isRegexSpace (u : N) : bool :=
  (((9 <=? u) && (u <=? 13)) || (u =? 32) || (u =? 160) || (u =? 5760)
   || ((8192 <=? u) && (u <=? 8202)) || (u =? 8232) || (u =? 8233) || (u =? 8239)
   || (u =? 8287) || (u =? 12288) || (u =? 65279))%N.

(** [s.replace(/\s+/g, '_')]: every maximal run of white space becomes
    one underscore.  [inRun] tells that the code unit before was white
    space. *)
Fixpoint replaceSpaceRuns_from (inRun : bool) (s : list N) : list N :=
  match s with
  | [] => []
  | u :: rest =>
    if isRegexSpace u
    then (if inRun then [] else [95%N]) ++ replaceSpaceRuns_from true rest
    else u :: replaceSpaceRuns_from false rest
  end.

Definition replaceSpaceRuns (s : list N) : list N := replaceSpaceRuns_from false s.

(** [s.replace(/[:.]/g, '-')] *)
Definition dashColonDot (s : list N) : list N :=
  map (fun u => if ((u =? 58) || (u =? 46))%N then 45%N else u) s.

(** The code units of an ASCII string. *)
Definition units (s : string) : list N :=
  map (fun c => N.of_nat (nat_of_ascii c)) (String.list_ascii_of_string s).

Section Download.
(** The built-in [toLowerCase]. *)
Variable toLowerCase : list N -> list N.

(** The value of [link.download]: [isoNow] is [new Date().toISOString()],
    [themeName] the value of the theme selector. *)
Definition downloadName (lastGeneratedCity themeName isoNow : list N) : list N :=
  let timestamp := take 19 (dashColonDot isoNow) in
  let citySlug := replaceSpaceRuns (toLowerCase lastGeneratedCity) in
  (citySlug ++ units "_" ++ themeName ++ units "_" ++ timestamp ++ units ".png")%list.
End Download.

(** * Rendering and the submit handler

    Beside the network and the console the handler changes the page (the
    status line, the loading overlay, two buttons), the canvas, and the
    two variables [lastGeneratedCity] and [lastGeneratedCountry]. *)

Record Ui := mkUi {
  statusText : string;      (* elements.status.textContent *)
  statusClass : string;     (* elements.status.className *)
  loadingHidden : bool;     (* the overlay has the class 'hidden' *)
  generateDisabled : bool;  (* elements.generateBtn.disabled *)
  downloadDisabled : bool   (* elements.downloadBtn.disabled *)
}.

Record App (World Planar Overlay : Type) := mkApp {
  core : State World;
  ui : Ui;
  canvas : list (CanvasOp Planar + Overlay);
  lastGeneratedCity : string;
  lastGeneratedCountry : string
}.
Arguments mkApp {World Planar Overlay} _ _ _ _ _.
Arguments core {World Planar Overlay} _.
Arguments ui {World Planar Overlay} _.
Arguments canvas {World Planar Overlay} _.
Arguments lastGeneratedCity {World Planar Overlay} _.
Arguments lastGeneratedCountry {World Planar Overlay} _.

Definition AppM (World Planar Overlay A : Type) : Type :=
  App World Planar Overlay -> (JsError + A) * App World Planar Overlay.

Definition CONFIG_CANVAS_WIDTH : Q := 900.
Definition CONFIG_CANVAS_HEIGHT : Q := 1200.

Section AppMonad.
Context {World Planar Overlay : Type}.

Definition aret {A} (x : A) : AppM World Planar Overlay A := fun a => (inr x, a).

Definition athrow {A} (e : JsError) : AppM World Planar Overlay A := fun a => (inl e, a).

Definition abind {A B} (m : AppM World Planar Overlay A)
           (k : A -> AppM World Planar Overlay B) : AppM World Planar Overlay B :=
  fun a =>
    match m a with
    | (inl e, a') => (inl e, a')
    | (inr x, a') => k x a'
    end.

(** A computation on the network and the console, run inside the page. *)
Definition lift {A} (m : M World A) : AppM World Planar Overlay A :=
  fun a =>
    let (r, c) := m (core a) in
    (r, mkApp c (ui a) (canvas a) (lastGeneratedCity a) (lastGeneratedCountry a)).

(** [try { body } catch (error) { handler } finally { final }] *)
Definition try_catch_finally {A} (body : AppM World Planar Overlay A)
           (handler : JsError -> AppM World Planar Overlay A)
           (final : AppM World Planar Overlay unit) : AppM World Planar Overlay A :=
  fun a =>
    let (r, a1) := match body a with
                   | (inl e, a') => handler e a'
                   | (inr x, a') => (inr x, a')
                   end in
    match final a1 with
    | (inl e, a2) => (inl e, a2)
    | (inr _, a2) => (r, a2)
    end.

Definition modifyUi (f : Ui -> Ui) : AppM World Planar Overlay unit :=
  fun a => (inr tt, mkApp (core a) (f (ui a)) (canvas a)
                          (lastGeneratedCity a) (lastGeneratedCountry a)).

(** [setStatus(message, type)] *)
Definition setStatus (message type : string) : AppM World Planar Overlay unit :=
  modifyUi (fun u => mkUi message ("status " ++ type) (loadingHidden u)
                          (generateDisabled u) (downloadDisabled u)).

(** [showLoading(show)] *)
Definition showLoading (show : bool) : AppM World Planar Overlay unit :=
  modifyUi (fun u => mkUi (statusText u) (statusClass u) (negb show) show
                          (downloadDisabled u)).

(** [elements.downloadBtn.disabled = b] *)
Definition setDownloadDisabled (b : bool) : AppM World Planar Overlay unit :=
  modifyUi (fun u => mkUi (statusText u) (statusClass u) (loadingHidden u)
                          (generateDisabled u) b).

(** [lastGeneratedCity = city; lastGeneratedCountry = country] *)
Definition setLastGenerated (city country : string) : AppM World Planar Overlay unit :=
  fun a => (inr tt, mkApp (core a) (ui a) (canvas a) city country).

(** The operations [ops] performed on the context. *)
Definition draw (ops : list (CanvasOp Planar)) : AppM World Planar Overlay unit :=
  fun a => (inr tt, mkApp (core a) (ui a) (canvas a ++ map inl ops)
                          (lastGeneratedCity a) (lastGeneratedCountry a)).

Definition drawOver (ops : list Overlay) : AppM World Planar Overlay unit :=
  fun a => (inr tt, mkApp (core a) (ui a) (canvas a ++ map inr ops)
                          (lastGeneratedCity a) (lastGeneratedCountry a)).
End AppMonad.

Notation "x <~ m ;; k" := (abind m (fun x => k))
  (at level 100, m at next level, right associativity).
Notation "m ;;~ k" := (abind m (fun _ => k))
  (at level 100, right associativity).

Section Handler.
Context {World Num Planar Overlay : Type}.

(** Built-ins and the network. *)
Variable trim : string -> string.
Variable encodeURIComponent : string -> string.
Variable parseFloat : string -> Num.
Variable http_get_theme : string -> World -> (JsError + Response Theme) * World.
Variable http_get_nominatim :
  string -> World -> (JsError + Response (option (list GeocodeHit))) * World.
Variable http_post_overpass :
  string -> string -> World -> (JsError + Response OverpassJson) * World.

(** [createProjection], which computes with floating point numbers, and
    the request body [fetchOSMData] builds from the centre and the
    radius. *)
Variable createProjection : Num -> Num -> Num -> Q -> Q -> (Q -> Q -> Planar).
Variable overpassBody : Num -> Num -> Num -> string.

(** The two calls of [drawGradientFade] and the call of [drawTypography]:
    the operations they perform and the error they stop with, if any. *)
Variable drawOverlays : Theme -> string -> string -> Num -> Num -> list Overlay * option JsError.

(** The [TypeError] of reading a property of [currentTheme] while it is
    [null]. *)
Variable nullThemeError : JsError.

Definition getCurrentTheme : AppM World Planar Overlay Theme :=
  fun a =>
    match currentTheme (core a) with
    | Some theme => (inr theme, a)
    | None => (inl nullThemeError, a)
    end.

Definition clearCanvas : AppM World Planar Overlay unit :=
  theme <~ getCurrentTheme ;;
  draw [SetFillStyle (themeValue theme "bg");
        FillRect 0 0 CONFIG_CANVAS_WIDTH CONFIG_CANVAS_HEIGHT].

(** [renderPoster].  Each [currentTheme.x] in the source is a read of
    the variable here.  [getRoadColor] reads it once per road; by then
    the reads before it have succeeded, so one read stands for them. *)
Definition renderPoster (city country : string) (lat lon radiusMeters : Num)
  : AppM World Planar Overlay unit :=
  let project :=
      createProjection lat lon radiusMeters CONFIG_CANVAS_WIDTH CONFIG_CANVAS_HEIGHT in
  clearCanvas ;;~
  lift (emit (EvLoadingText "Fetching map data...")) ;;~
  data <~ lift (fetchOSMData http_post_overpass (overpassBody lat lon radiusMeters)) ;;
  lift (emit (EvLoadingText "Rendering map...")) ;;~
  theme <~ getCurrentTheme ;;
  draw (drawPolygons project (waterPolygons data) (themeValue theme "water")) ;;~
  theme <~ getCurrentTheme ;;
  draw (drawWaterways project (waterWays data) (themeValue theme "water")) ;;~
  theme <~ getCurrentTheme ;;
  draw (drawPolygons project (parks data) (themeValue theme "parks")) ;;~
  theme <~ getCurrentTheme ;;
  draw (drawRoads project theme (roads data)) ;;~
  theme <~ getCurrentTheme ;;
  drawOver (fst (drawOverlays theme city country lat lon)) ;;~
  match snd (drawOverlays theme city country lat lon) with
  | Some e => athrow e
  | None => aret tt
  end.

(** The listener of the form's [submit] event.  [cityInput] and
    [countryInput] are the values of the two text fields, [themeName]
    the value of the selector, [radiusMeters] the number
    [parseInt(distance) * 1000]. *)
Definition onSubmit (cityInput countryInput themeName : string) (radiusMeters : Num)
  : AppM World Planar Overlay unit :=
  let city := trim cityInput in
  let country := trim countryInput in
  if String.eqb city EmptyString || String.eqb country EmptyString
  then setStatus "Please enter both city and country" "error"
  else
    try_catch_finally
      (showLoading true ;;~
       setDownloadDisabled true ;;~
       setStatus EmptyString EmptyString ;;~
       lift (emit (EvLoadingText "Loading theme...")) ;;~
       lift (loadTheme http_get_theme themeName) ;;~
       lift (emit (EvLoadingText "Finding location...")) ;;~
       location <~ lift (geocode encodeURIComponent parseFloat http_get_nominatim
                                 city country) ;;
       setStatus ("Found: " ++ loc_displayName location) "loading" ;;~
       renderPoster city country (loc_lat location) (loc_lon location) radiusMeters ;;~
       setLastGenerated city country ;;~
       setStatus ("Poster generated for " ++ city ++ ", " ++ country) "success" ;;~
       setDownloadDisabled false)
      (fun error =>
         lift (emit (EvConsoleError "Error generating poster:" error)) ;;~
         setStatus ("Error: " ++ message error) "error")
      (showLoading false).

End Handler.

(** * A world for worked runs of the handler

    The answers the theme files, the geocoder and the Overpass servers
    will give, each list consumed from the front. *)
Record Script := mkScript {
  themeAnswers : list (JsError + Response Theme);
  geocoderAnswers : list (JsError + Response (option (list GeocodeHit)));
  overpassAnswers : list (JsError + Response OverpassJson)
}.

Definition script_get_theme (url : string) (w : Script)
  : (JsError + Response Theme) * Script :=
  let (r, rest) := scripted url (themeAnswers w) in
  (r, mkScript rest (geocoderAnswers w) (overpassAnswers w)).

Definition script_get_nominatim (url : string) (w : Script)
  : (JsError + Response (option (list GeocodeHit))) * Script :=
  let (r, rest) := scripted url (geocoderAnswers w) in
  (r, mkScript (themeAnswers w) rest (overpassAnswers w)).

Definition script_post_overpass (url body : string) (w : Script)
  : (JsError + Response OverpassJson) * Script :=
  let (r, rest) := scripted url (overpassAnswers w) in
  (r, mkScript (themeAnswers w) (geocoderAnswers w) rest).

(** The page before the first submit. *)
Definition freshPage (w : Script) : App Script (Q * Q) unit :=
  mkApp (initialState w) (mkUi EmptyString "status" true false true) [] EmptyString EmptyString.

(** The handler with stand-ins for the built-ins: strings are already
    trimmed, numbers are kept as the strings they are written with, the
    projection is the identity, there are no overlays. *)
Definition demoSubmit (cityInput countryInput themeName radius : string)
  : AppM Script (Q * Q) unit unit :=
  onSubmit (fun s => s) (fun s => s) (fun s => s)
           script_get_theme script_get_nominatim script_post_overpass
           (fun _ _ _ _ _ la lo => (la, lo)) (fun _ _ _ => "data=q")
           (fun _ _ _ _ _ => ([], None)) (mkError "currentTheme is null")
           cityInput countryInput themeName radius.

Definition demoRender (city country lat lon radius : string)
  : AppM Script (Q * Q) unit unit :=
  renderPoster script_post_overpass
               (fun _ _ _ _ _ la lo => (la, lo)) (fun _ _ _ => "data=q")
               (fun _ _ _ _ _ => ([], None)) (mkError "currentTheme is null")
               city country lat lon radius.

(** Everything answers. *)
Definition goodDay : Script :=
  mkScript [inr (mkResponse true 200 (inr fallbackTheme))]
           [inr (mkResponse true 200
                   (inr (Some [mkHit "52.5" "13.4" "Berlin, Deutschland";
                               mkHit "0" "0" "elsewhere"])))]
           [inr (mkResponse true 200 (inr (Graph scenario_primary)))].

(** The geocoder finds nothing. *)
Definition nowhere : Script :=
  mkScript [inr (mkResponse true 200 (inr fallbackTheme))]
           [inr (mkResponse true 200 (inr (Some [])))]
           [inr (mkResponse true 200 (inr (Graph scenario_primary)))].

(** No Overpass server answers. *)
Definition overpassDown : Script :=
  mkScript [inr (mkResponse true 200 (inr fallbackTheme))]
           [inr (mkResponse true 200 (inr (Some [mkHit "52.5" "13.4" "Berlin, Deutschland"])))]
           [].


(** * Properties *)

(** ** The sort *)

Section Sort.
Context {A : Type} (key : A -> Z).

Local Abbreviation cmp := (fun a b : A => key a - key b).
Local Abbreviation le := (fun a b : A => key a <= key b).

Lemma sort_insert_perm x l : sort_insert cmp x l ≡ₚ x :: l.
Proof.
  induction l as [|y l IH]; simpl; [done|].
  destruct (cmp x y <=? 0); [done|].
  rewrite IH. apply Permutation_swap.
Qed.

Lemma array_sort_perm l : array_sort cmp l ≡ₚ l.
Proof.
  induction l as [|x l IH]; simpl; [done|].
  rewrite sort_insert_perm. by rewrite IH.
Qed.

Lemma sort_insert_sorted x l :
  StronglySorted le l -> StronglySorted le (sort_insert cmp x l).
Proof.
  induction 1 as [|y l Hs IH Hall]; simpl.
  - repeat constructor.
  - destruct (Z.leb_spec (cmp x y) 0) as [Hxy|Hxy]; simpl in *.
    + constructor; [by constructor|].
      constructor; [lia|].
      eapply Forall_impl; [exact Hall|]. simpl. intros z Hz. lia.
    + constructor; [exact IH|].
      rewrite sort_insert_perm. constructor; [lia|exact Hall].
Qed.

Lemma array_sort_sorted l : StronglySorted le (array_sort cmp l).
Proof.
  induction l as [|x l IH]; simpl; [constructor|].
  by apply sort_insert_sorted.
Qed.

(** Stability: elements with the same key keep their relative order. *)
Lemma sort_insert_stable k x l :
  StronglySorted le l ->
  List.filter (fun a => key a =? k) (sort_insert cmp x l)
  = List.filter (fun a => key a =? k) (x :: l).
Proof.
  induction 1 as [|y l Hs IH Hall]; [done|].
  cbn [sort_insert].
  destruct (Z.leb_spec (cmp x y) 0) as [Hxy|Hxy]; [done|].
  simpl in *.
  rewrite IH.
  destruct (Z.eqb_spec (key y) k), (Z.eqb_spec (key x) k); try done; lia.
Qed.

Lemma array_sort_stable k l :
  List.filter (fun a => key a =? k) (array_sort cmp l)
  = List.filter (fun a => key a =? k) l.
Proof.
  induction l as [|x l IH]; [done|].
  cbn [array_sort]. rewrite sort_insert_stable by apply array_sort_sorted.
  simpl. by rewrite IH.
Qed.

(** A sorted list is determined by its elements of each key, taken in
  order: there is one stable sorted arrangement of an array. *)
Lemma stable_sorted_unique (l1 l2 : list A) :
  StronglySorted le l1 -> StronglySorted le l2 ->
  (forall k, List.filter (fun a => key a =? k) l1 = List.filter (fun a => key a =? k) l2) ->
  l1 = l2.
Proof.
  intros Hs1. revert l2.
  induction Hs1 as [|x l1 Hs1 IH Hall1]; intros l2 Hs2 Hf.
  - destruct l2 as [|y l2]; [done|].
    specialize (Hf (key y)). simpl in Hf. by rewrite Z.eqb_refl in Hf.
  - destruct Hs2 as [|y l2 Hs2 Hall2].
    { specialize (Hf (key x)). simpl in Hf. by rewrite Z.eqb_refl in Hf. }
    rewrite Forall_forall in Hall1, Hall2.
    assert (Hxy : key x = key y).
    { pose proof (Hf (key x)) as Hx. pose proof (Hf (key y)) as Hy.
      simpl in Hx, Hy. rewrite Z.eqb_refl in Hx, Hy.
      destruct (Z.eqb_spec (key y) (key x)) as [|Hne]; [done|].
      destruct (Z.eqb_spec (key x) (key y)) as [|_]; [done|].
      assert (Hx2 : x ∈ l2).
      { apply list_elem_of_In.
        apply (proj1 (filter_In (fun a => key a =? key x) x l2)).
        rewrite <- Hx. by left. }
      assert (Hy1 : y ∈ l1).
      { apply list_elem_of_In.
        apply (proj1 (filter_In (fun a => key a =? key y) y l1)).
        rewrite Hy. by left. }
      pose proof (Hall2 x Hx2). pose proof (Hall1 y Hy1). simpl in *. lia. }
    pose proof (Hf (key x)) as Hx. simpl in Hx.
    rewrite Z.eqb_refl, <- Hxy, Z.eqb_refl in Hx. injection Hx as <- Hx.
    f_equal. apply IH; [done|].
    intros k. specialize (Hf k). simpl in Hf.
    destruct (key x =? k); [by injection Hf|done].
Qed.

(** So whatever stable sorting algorithm the engine runs, it returns
  [array_sort]. *)
Lemma array_sort_unique (l l' : list A) :
  StronglySorted le l' ->
  (forall k, List.filter (fun a => key a =? k) l' = List.filter (fun a => key a =? k) l) ->
  l' = array_sort cmp l.
Proof.
  intros Hs Hf. apply stable_sorted_unique; [done|apply array_sort_sorted|].
  intros k. by rewrite Hf, array_sort_stable.
Qed.

Lemma sorted_lookup_le (l : list A) i j a b :
  StronglySorted le l -> l !! i = Some a -> l !! j = Some b ->
  (i < j)%nat -> key a <= key b.
Proof.
  intros Hs. revert i j. induction Hs as [|y l Hs IH Hall]; intros i j Hi Hj Hij.
  - by rewrite lookup_nil in Hi.
  - destruct j as [|j]; [lia|]. destruct i as [|i]; simpl in *.
    + injection Hi as ->. rewrite Forall_forall in Hall.
      apply Hall. by eapply list_elem_of_lookup_2.
    + eapply (IH i j); eauto. lia.
Qed.

Lemma sorted_lookup_lt (l : list A) i j a b :
  StronglySorted le l -> l !! i = Some a -> l !! j = Some b ->
  key a < key b -> (i < j)%nat.
Proof.
  intros Hs Hi Hj Hlt.
  destruct (decide (i < j)%nat) as [|Hge]; [done|].
  destruct (decide (i = j)) as [->|Hne].
  - rewrite Hi in Hj. injection Hj as ->. lia.
  - assert (key b <= key a); [|lia].
    eapply (sorted_lookup_le l j i); eauto. lia.
Qed.
End Sort.

(** ** [indexOf] *)

Lemma indexOf_from_notin x arr i : x ∉ arr -> indexOf_from x arr i = -1.
Proof.
  revert i. induction arr as [|y arr IH]; intros i Hx; simpl; [done|].
  apply not_elem_of_cons in Hx as [Hne Hx].
  destruct (String.eqb_spec y x); [congruence|]. by apply IH.
Qed.

Lemma indexOf_from_lookup x arr i p :
  NoDup arr -> arr !! p = Some x -> indexOf_from x arr i = i + Z.of_nat p.
Proof.
  intros Hnd. revert i p. induction Hnd as [|y arr Hy Hnd IH]; intros i p Hp.
  - by rewrite lookup_nil in Hp.
  - simpl. destruct (String.eqb_spec y x) as [->|Hne].
    + destruct p as [|p]; [lia|]. simpl in Hp.
      exfalso. apply Hy. by eapply list_elem_of_lookup_2.
    + destruct p as [|p]; simpl in Hp; [congruence|].
      rewrite (IH _ p) by done. lia.
Qed.

Lemma roadOrder_NoDup : NoDup roadOrder.
Proof. apply (bool_decide_unpack (NoDup roadOrder)). vm_compute. exact I. Qed.

Lemma indexOf_roadOrder_unknown x : x ∉ roadOrder -> indexOf roadOrder x = -1.
Proof. apply indexOf_from_notin. Qed.

Lemma indexOf_roadOrder_known x p :
  roadOrder !! p = Some x -> indexOf roadOrder x = Z.of_nat p.
Proof.
  intros Hp. unfold indexOf.
  rewrite (indexOf_from_lookup x roadOrder 0 p roadOrder_NoDup Hp). lia.
Qed.

(** ** C1: the roads leave the classifier in drawing order *)

(** C1.  For every input graph, the [roads] that [parseOSMData] returns
    are the roads it collected, rearranged so that they are sorted
    ascending by their position in the 14-entry table [roadOrder]
    (service first, motorway last); a road whose subtype is not in the
    table comes before every road whose subtype is, and a road whose
    subtype stands earlier in the table comes before every road whose
    subtype stands later. *)
Theorem parseOSMData_roads_sorted (data : OsmData) :
  let rs := roads (parseOSMData data) in
  roadOrder = ["service"; "living_street"; "unclassified"; "residential";
               "tertiary_link"; "tertiary"; "secondary_link"; "secondary";
               "primary_link"; "primary"; "trunk_link"; "trunk";
               "motorway_link"; "motorway"] /\
  rs ≡ₚ b_roads (classifyAll (buildNodes (elements data)) (elements data)) /\
  StronglySorted (fun a b => roadPriority a <= roadPriority b) rs /\
  (forall i j a b,
      rs !! i = Some a -> rs !! j = Some b ->
      road_type a ∉ roadOrder -> road_type b ∈ roadOrder -> (i < j)%nat) /\
  (forall i j a b p q,
      rs !! i = Some a -> rs !! j = Some b ->
      roadOrder !! p = Some (road_type a) -> roadOrder !! q = Some (road_type b) ->
      (p < q)%nat -> (i < j)%nat).
Proof.
  intros rs.
  assert (Hs : StronglySorted (fun a b => roadPriority a <= roadPriority b) rs).
  { apply (array_sort_sorted roadPriority). }
  split; [reflexivity|]. split; [apply (array_sort_perm roadPriority)|].
  split; [exact Hs|]. split.
  - intros i j a b Hi Hj Ha Hb.
    apply (sorted_lookup_lt roadPriority rs i j a b Hs Hi Hj).
    unfold roadPriority. rewrite (indexOf_roadOrder_unknown _ Ha).
    apply list_elem_of_lookup in Hb as [q Hq].
    rewrite (indexOf_roadOrder_known _ _ Hq). lia.
  - intros i j a b p q Hi Hj Hp Hq Hpq.
    apply (sorted_lookup_lt roadPriority rs i j a b Hs Hi Hj).
    unfold roadPriority.
    rewrite (indexOf_roadOrder_known _ _ Hp), (indexOf_roadOrder_known _ _ Hq). lia.
Qed.

(** ** The classifier, one element at a time *)

Lemma truthy_true v : truthy v = true <-> exists s, v = Some s /\ s ≠ EmptyString.
Proof.
  destruct v as [s|]; simpl.
  - destruct (String.eqb_spec s EmptyString) as [->|Hne]; simpl.
    + split; [done|]. intros (s & [= <-] & Hs). done.
    + split; [|done]. intros _. by exists s.
  - split; [done|]. by intros (s & Hs & _).
Qed.

Lemma strictEq_true v s : strictEq v s = true <-> v = Some s.
Proof.
  destruct v as [s'|]; simpl; [|done].
  destruct (String.eqb_spec s' s) as [->|Hne]; [done|].
  split; [done|]. by intros [= ->].
Qed.

Lemma isClosed_head_last ids : isClosed ids = true <-> head ids = last ids.
Proof.
  unfold isClosed. rewrite bool_decide_eq_true.
  rewrite head_lookup, last_lookup. unfold at_index. simpl.
  destruct ids as [|x ids]; [done|].
  cbn [length].
  destruct (Z.ltb_spec (Z.of_nat (S (length ids)) - 1) 0) as [Hlt|_]; [lia|].
  by replace (Z.to_nat (Z.of_nat (S (length ids)) - 1)) with (pred (S (length ids))) by lia.
Qed.

Lemma isClosed_open ids : head ids ≠ last ids -> isClosed ids = false.
Proof.
  intros Hne. destruct (isClosed ids) eqn:E; [|done].
  by apply isClosed_head_last in E.
Qed.

(** The callback pushes the element to the array [categoryOf] names, and
    does nothing else. *)
Lemma classifyElement_category tbl acc el :
  classifyElement tbl acc el =
  match categoryOf tbl el with
  | Some CRoad =>
    pushRoad acc (mkRoad (default EmptyString (default ∅ (el_tags el) !! "highway"))
                         (resolve tbl (memberIds el)))
  | Some CWaterLine => pushWaterWay acc (mkShape (resolve tbl (memberIds el)))
  | Some CWaterPolygon => pushWaterPolygon acc (mkShape (resolve tbl (memberIds el)))
  | Some CPark => pushPark acc (mkShape (resolve tbl (memberIds el)))
  | None => acc
  end.
Proof.
  unfold classifyElement, categoryOf, memberIds, roadTagged, waterTagged, parkTagged.
  destruct (String.eqb (el_type el) "way"); [|done].
  destruct (el_nodes el) as [ids|]; [|done].
  destruct (el_tags el) as [tags|]; [|done]. simpl.
  destruct (length (resolve tbl ids) <? 2)%nat; [done|].
  destruct (truthy (tags !! "highway")); [done|].
  destruct (strictEq (tags !! "natural") "water" || truthy (tags !! "waterway")).
  { by destruct (isClosed ids). }
  destruct (strictEq (tags !! "leisure") "park" || strictEq (tags !! "landuse") "grass");
    [|done].
  by destruct (isClosed ids).
Qed.

Lemma categoryOf_None_skip tbl acc el :
  categoryOf tbl el = None -> classifyElement tbl acc el = acc.
Proof. intros H. by rewrite classifyElement_category, H. Qed.

(** An element that is not a node leaves the lookup table alone. *)
Lemma buildNodes_skip l1 el l2 :
  el_type el ≠ "node" -> buildNodes (l1 ++ el :: l2) = buildNodes (l1 ++ l2).
Proof.
  intros Hne. unfold buildNodes. rewrite !foldl_app. simpl.
  unfold addNode at 2. by destruct (String.eqb_spec (el_type el) "node").
Qed.

Lemma classifyAll_skip tbl l1 el l2 :
  categoryOf tbl el = None -> classifyAll tbl (l1 ++ el :: l2) = classifyAll tbl (l1 ++ l2).
Proof.
  intros H. unfold classifyAll. rewrite !foldl_app. simpl.
  by rewrite (categoryOf_None_skip _ _ _ H).
Qed.

Lemma parseOSMData_skip l1 el l2 :
  el_type el ≠ "node" ->
  categoryOf (buildNodes (l1 ++ el :: l2)) el = None ->
  parseOSMData (mkData (l1 ++ el :: l2)) = parseOSMData (mkData (l1 ++ l2)).
Proof.
  intros Hne Hcat. unfold parseOSMData. simpl.
  rewrite (classifyAll_skip _ _ _ _ Hcat).
  by rewrite (buildNodes_skip _ _ _ Hne).
Qed.

(** ** Folding the callback over the elements *)

Lemma bappend_noBuckets acc : bappend acc noBuckets = acc.
Proof. destruct acc. unfold bappend. simpl. by rewrite !app_nil_r. Qed.

Lemma bappend_assoc a b c : bappend (bappend a b) c = bappend a (bappend b c).
Proof. unfold bappend. simpl. by rewrite !app_assoc. Qed.

Lemma classifyElement_bappend tbl acc el :
  classifyElement tbl acc el = bappend acc (classifyElement tbl noBuckets el).
Proof.
  rewrite !classifyElement_category.
  destruct (categoryOf tbl el) as [[]|]; unfold bappend, pushRoad, pushWaterWay,
    pushWaterPolygon, pushPark; simpl; rewrite ?app_nil_r; by destruct acc.
Qed.

Lemma foldl_classifyElement tbl acc els :
  foldl (classifyElement tbl) acc els = bappend acc (classifyAll tbl els).
Proof.
  unfold classifyAll. revert acc.
  induction els as [|el els IH]; intros acc; simpl.
  - by rewrite bappend_noBuckets.
  - rewrite IH, (IH (classifyElement tbl noBuckets el)).
    rewrite (classifyElement_bappend tbl acc el). by rewrite bappend_assoc.
Qed.

Lemma classifyAll_cons tbl el els :
  classifyAll tbl (el :: els)
  = bappend (classifyElement tbl noBuckets el) (classifyAll tbl els).
Proof. unfold classifyAll at 1. simpl. apply foldl_classifyElement. Qed.

Lemma classifyAll_app tbl l1 l2 :
  classifyAll tbl (l1 ++ l2) = bappend (classifyAll tbl l1) (classifyAll tbl l2).
Proof.
  unfold classifyAll at 1. rewrite foldl_app.
  fold (classifyAll tbl l1). apply foldl_classifyElement.
Qed.

(** Each array is the list of shapes of its category, in input order. *)
Lemma classifyAll_shapes tbl els :
  b_waterWays (classifyAll tbl els) = omap (shapeOf tbl CWaterLine) els /\
  b_waterPolygons (classifyAll tbl els) = omap (shapeOf tbl CWaterPolygon) els /\
  b_parks (classifyAll tbl els) = omap (shapeOf tbl CPark) els.
Proof.
  induction els as [|el els (IH1 & IH2 & IH3)]; [done|].
  rewrite classifyAll_cons, classifyElement_category. simpl.
  rewrite IH1, IH2, IH3. unfold shapeOf.
  destruct (categoryOf tbl el) as [[]|]; simpl; repeat case_decide; naive_solver.
Qed.

Lemma omap_keepsInputOrder {A B} (f : A -> option B) (l : list A) :
  keepsInputOrder f l (omap f l).
Proof.
  unfold keepsInputOrder.
  induction l as [|x l IH]; intros i j y z Hi Hj Hij.
  - simpl in Hi. by rewrite lookup_nil in Hi.
  - simpl in Hi, Hj. destruct (f x) as [b|] eqn:Hfx.
    + destruct j as [|j]; [lia|]. simpl in Hj. destruct i as [|i]; simpl in Hi.
      * injection Hi as ->.
        apply list_elem_of_lookup_2, list_elem_of_omap in Hj as (a & Ha & Hfa).
        apply list_elem_of_lookup in Ha as [j' Hj'].
        exists 0%nat, (S j'), x, a. repeat split; try done. lia.
      * destruct (IH i j y z Hi Hj) as (i' & j' & a & c & ? & ? & ? & ? & ?); [lia|].
        exists (S i'), (S j'), a, c. repeat split; try done. lia.
    + destruct (IH i j y z Hi Hj Hij) as (i' & j' & a & c & ? & ? & ? & ? & ?).
      exists (S i'), (S j'), a, c. repeat split; try done. lia.
Qed.

(** ** Resolving member ids *)

Lemma resolve_omap tbl ids : resolve tbl ids = omap (fun id => tbl !! id) ids.
Proof.
  unfold resolve. induction ids as [|id ids IH]; [done|].
  simpl. destruct (tbl !! id) as [p|]; simpl; by rewrite IH.
Qed.

Lemma resolve_members tbl ids :
  Forall2 (fun id p => tbl !! id = Some p)
          (filter (fun id => is_Some (tbl !! id)) ids) (resolve tbl ids).
Proof.
  rewrite resolve_omap. induction ids as [|id ids IH]; simpl; [constructor|].
  destruct (tbl !! id) as [p|] eqn:Hid.
  - rewrite filter_cons_True by (by rewrite Hid). by constructor.
  - rewrite filter_cons_False; [done|]. rewrite Hid. by intros [? ?].
Qed.

Lemma hasTag_truthy tags k : truthy (tags !! k) = true <-> hasTag tags k.
Proof. apply truthy_true. Qed.

Lemma not_hasTag_truthy tags k : ~ hasTag tags k -> truthy (tags !! k) = false.
Proof.
  intros Hn. destruct (truthy (tags !! k)) eqn:E; [|done].
  by apply hasTag_truthy in E.
Qed.

Lemma waterTagged_true tags :
  waterTagged tags = true <-> tags !! "natural" = Some "water" \/ hasTag tags "waterway".
Proof.
  unfold waterTagged. rewrite orb_true_iff, strictEq_true, hasTag_truthy. done.
Qed.

Lemma parkTagged_true tags :
  parkTagged tags = true
  <-> tags !! "leisure" = Some "park" \/ tags !! "landuse" = Some "grass".
Proof. unfold parkTagged. by rewrite orb_true_iff, !strictEq_true. Qed.

Lemma not_true_false b : ~ (b = true) -> b = false.
Proof. by destruct b. Qed.

(** What the callback does on a way that kept two or more points. *)
Lemma classifyElement_way tbl acc el ids tags :
  el_type el = "way" -> el_nodes el = Some ids -> el_tags el = Some tags ->
  (2 <= length (resolve tbl ids))%nat ->
  classifyElement tbl acc el =
  if roadTagged tags
  then pushRoad acc (mkRoad (default EmptyString (tags !! "highway")) (resolve tbl ids))
  else if waterTagged tags then
    if isClosed ids then pushWaterPolygon acc (mkShape (resolve tbl ids))
    else pushWaterWay acc (mkShape (resolve tbl ids))
  else if parkTagged tags then
    if isClosed ids then pushPark acc (mkShape (resolve tbl ids)) else acc
  else acc.
Proof.
  intros Hty Hids Htags Hlen. unfold classifyElement.
  rewrite Hty, Hids, Htags. simpl.
  destruct (Nat.ltb_spec (length (resolve tbl ids)) 2) as [Hlt|_]; [lia|].
  done.
Qed.

(** ** C6: ways with fewer than two resolved points *)

Lemma classifyElement_short tbl acc el :
  (length (resolve tbl (memberIds el)) < 2)%nat -> classifyElement tbl acc el = acc.
Proof.
  intros Hlt. apply categoryOf_None_skip. unfold categoryOf, memberIds in *.
  destruct (String.eqb (el_type el) "way"); [|done].
  destruct (el_nodes el) as [ids|]; [|done].
  destruct (el_tags el) as [tags|]; [|done]. simpl in Hlt.
  by destruct (Nat.ltb_spec (length (resolve tbl ids)) 2) as [_|Hge]; [|lia].
Qed.

(** C6.  Let a way stand anywhere in the input graph.  If fewer than two
    of its member ids resolve through the node table of that graph, the
    callback leaves all four arrays as they are, and [parseOSMData]
    returns what it returns on the graph without that way: the way
    contributes to no output category. *)
Theorem short_way_dropped (l1 l2 : list Element) (el : Element) :
  el_type el = "way" ->
  (length (resolve (buildNodes (l1 ++ el :: l2)) (memberIds el)) < 2)%nat ->
  (forall acc, classifyElement (buildNodes (l1 ++ el :: l2)) acc el = acc) /\
  parseOSMData (mkData (l1 ++ el :: l2)) = parseOSMData (mkData (l1 ++ l2)).
Proof.
  intros Hty Hlt. split.
  - intros acc. by apply classifyElement_short.
  - apply parseOSMData_skip.
    + rewrite Hty. done.
    + unfold categoryOf, memberIds in *.
      destruct (String.eqb (el_type el) "way"); [|done].
      destruct (el_nodes el) as [ids|]; [|done].
      destruct (el_tags el) as [tags|]; [|done]. simpl in Hlt.
      by destruct (Nat.ltb_spec (length (resolve (buildNodes (l1 ++ el :: l2)) ids)) 2)
        as [_|Hge]; [|lia].
Qed.

Lemma short_way_dropped_witness :
  parseOSMData (mkData (two_nodes ++ dangling_way :: [open_stream]))
  = parseOSMData (mkData (two_nodes ++ [open_stream])).
Proof.
  apply (short_way_dropped two_nodes [open_stream] dangling_way).
  - reflexivity.
  - vm_compute. lia.
Defined.

(** ** C9: relations and other elements that are not ways *)

(** C9.  The callback changes the arrays only on an element of type
    ['way'] that has both a member list and a tag set.  A relation,
    whatever its tags and members, leaves the arrays as they are, and
    [parseOSMData] returns what it returns on the graph without the
    relation. *)
Theorem relations_contribute_nothing (l1 l2 : list Element) (el : Element) :
  (forall tbl acc,
      classifyElement tbl acc el ≠ acc ->
      el_type el = "way" /\ is_Some (el_nodes el) /\ is_Some (el_tags el)) /\
  (el_type el = "relation" ->
   (forall tbl acc, classifyElement tbl acc el = acc) /\
   parseOSMData (mkData (l1 ++ el :: l2)) = parseOSMData (mkData (l1 ++ l2))).
Proof.
  split.
  - intros tbl acc Hne. unfold classifyElement in Hne.
    destruct (String.eqb_spec (el_type el) "way") as [Hty|Hty]; [|done].
    destruct (el_nodes el) as [ids|]; [|done].
    destruct (el_tags el) as [tags|]; [|done]. eauto.
  - intros Hty.
    assert (Hcat : forall tbl, categoryOf tbl el = None).
    { intros tbl. unfold categoryOf. by rewrite Hty. }
    split.
    + intros tbl acc. by apply categoryOf_None_skip.
    + apply parseOSMData_skip; [by rewrite Hty|apply Hcat].
Qed.

Lemma relations_contribute_nothing_witness :
  parseOSMData (mkData (two_nodes ++ park_relation :: [open_stream]))
  = parseOSMData (mkData (two_nodes ++ [open_stream])).
Proof.
  apply (proj2 (relations_contribute_nothing two_nodes [open_stream] park_relation)).
  reflexivity.
Defined.

(** ** C10: input order and member order *)

(** C10.  The water lines, the water polygons and the parks that
    [parseOSMData] returns are the shapes of the ways of that category,
    listed in the order of the input array; and the points of a shape
    are the table entries of the way's member ids, in member order, the
    ids without an entry left out. *)
Theorem shapes_keep_input_order (data : OsmData) :
  let tbl := buildNodes (elements data) in
  let r := parseOSMData data in
  (waterWays r = omap (shapeOf tbl CWaterLine) (elements data) /\
   waterPolygons r = omap (shapeOf tbl CWaterPolygon) (elements data) /\
   parks r = omap (shapeOf tbl CPark) (elements data)) /\
  (keepsInputOrder (shapeOf tbl CWaterLine) (elements data) (waterWays r) /\
   keepsInputOrder (shapeOf tbl CWaterPolygon) (elements data) (waterPolygons r) /\
   keepsInputOrder (shapeOf tbl CPark) (elements data) (parks r)) /\
  (forall c el s,
      shapeOf tbl c el = Some s ->
      Forall2 (fun id p => tbl !! id = Some p)
              (filter (fun id => is_Some (tbl !! id)) (memberIds el))
              (shape_coords s)).
Proof.
  intros tbl r.
  destruct (classifyAll_shapes tbl (elements data)) as (H1 & H2 & H3).
  assert (E1 : waterWays r = omap (shapeOf tbl CWaterLine) (elements data)) by exact H1.
  assert (E2 : waterPolygons r = omap (shapeOf tbl CWaterPolygon) (elements data))
    by exact H2.
  assert (E3 : parks r = omap (shapeOf tbl CPark) (elements data)) by exact H3.
  split; [done|]. split.
  - rewrite E1, E2, E3. repeat split; apply omap_keepsInputOrder.
  - intros c el s Hs. unfold shapeOf in Hs. case_decide; [|done].
    injection Hs as <-. simpl. apply resolve_members.
Qed.

(** ** C4: the closed-ring test *)

Lemma open_way_polygons tbl acc el ids :
  el_nodes el = Some ids -> head ids ≠ last ids ->
  b_waterPolygons (classifyElement tbl acc el) = b_waterPolygons acc /\
  b_parks (classifyElement tbl acc el) = b_parks acc.
Proof.
  intros Hids Hopen. apply isClosed_open in Hopen.
  unfold classifyElement. rewrite Hids.
  destruct (String.eqb (el_type el) "way"); [|done].
  destruct (el_tags el) as [tags|]; [|done]. simpl.
  destruct (length (resolve tbl ids) <? 2)%nat; [done|].
  destruct (truthy (tags !! "highway")); [done|]. rewrite Hopen.
  destruct (strictEq (tags !! "natural") "water" || truthy (tags !! "waterway")); [done|].
  by destruct (strictEq (tags !! "leisure") "park" || strictEq (tags !! "landuse") "grass").
Qed.

(** C4.  Take a way with member ids [ids].
    - If its first and last member ids differ, the callback leaves the
      water polygons and the parks as they are, whatever the tags, and
      so does the whole of [parseOSMData]: the two arrays are those of
      the graph without the way.
    - If the way has kept two points and is not a road, then: tagged as
      water it is pushed to the water lines when open and to the water
      polygons when closed; tagged as a park (and not as water) it is
      dropped when open and pushed to the parks when closed.
    So a water or park way lands in a polygon array exactly when its
    first and last member ids are identical. *)
Theorem open_way_never_polygon (tbl : gmap Z GeoPoint) (acc : Buckets)
        (el : Element) (ids : list Z) :
  el_nodes el = Some ids ->
  let r := classifyElement tbl acc el in
  let shape := mkShape (resolve tbl ids) in
  (head ids ≠ last ids ->
   (b_waterPolygons r = b_waterPolygons acc /\ b_parks r = b_parks acc) /\
   (forall l1 l2,
       el_type el = "way" ->
       waterPolygons (parseOSMData (mkData (l1 ++ el :: l2)))
       = waterPolygons (parseOSMData (mkData (l1 ++ l2))) /\
       parks (parseOSMData (mkData (l1 ++ el :: l2)))
       = parks (parseOSMData (mkData (l1 ++ l2))))) /\
  (forall tags,
      el_type el = "way" -> el_tags el = Some tags ->
      (2 <= length (resolve tbl ids))%nat -> ~ hasTag tags "highway" ->
      ((tags !! "natural" = Some "water" \/ hasTag tags "waterway") ->
       (head ids ≠ last ids -> r = pushWaterWay acc shape) /\
       (head ids = last ids -> r = pushWaterPolygon acc shape)) /\
      (~ (tags !! "natural" = Some "water" \/ hasTag tags "waterway") ->
       (tags !! "leisure" = Some "park" \/ tags !! "landuse" = Some "grass") ->
       (head ids ≠ last ids -> r = acc) /\
       (head ids = last ids -> r = pushPark acc shape))).
Proof.
  intros Hids r shape. split.
  - intros Hopen. split; [by apply (open_way_polygons tbl acc el ids)|].
    intros l1 l2 Hty.
    assert (Htbl : buildNodes (l1 ++ el :: l2) = buildNodes (l1 ++ l2)).
    { apply buildNodes_skip. by rewrite Hty. }
    unfold parseOSMData. simpl. rewrite Htbl.
    rewrite !classifyAll_app, classifyAll_cons.
    destruct (open_way_polygons (buildNodes (l1 ++ l2)) noBuckets el ids Hids Hopen)
      as [Hw Hp].
    simpl. by rewrite Hw, Hp.
  - intros tags Hty Htags Hlen Hroad.
    subst r. rewrite (classifyElement_way tbl acc el ids tags Hty Hids Htags Hlen).
    unfold roadTagged. rewrite (not_hasTag_truthy _ _ Hroad).
    split.
    + intros Hwater. apply waterTagged_true in Hwater. rewrite Hwater. split.
      * intros Hopen. by rewrite (isClosed_open _ Hopen).
      * intros Hclosed. by rewrite (proj2 (isClosed_head_last ids) Hclosed).
    + intros Hnw Hpark.
      rewrite (not_true_false (waterTagged tags)) by (by rewrite waterTagged_true).
      apply parkTagged_true in Hpark. rewrite Hpark. split.
      * intros Hopen. by rewrite (isClosed_open _ Hopen).
      * intros Hclosed. by rewrite (proj2 (isClosed_head_last ids) Hclosed).
Qed.

Lemma open_way_never_polygon_witness :
  b_waterPolygons (classifyElement (buildNodes two_nodes) noBuckets open_stream) = [] /\
  b_parks (classifyElement (buildNodes two_nodes) noBuckets open_stream) = [].
Proof.
  apply (open_way_never_polygon (buildNodes two_nodes) noBuckets open_stream [1; 2]).
  - reflexivity.
  - vm_compute. congruence.
Defined.

(** ** C5: tag precedence *)

(** The way [empty_highway_way] has a [highway] tag and is not classified
    as a road: the value of the tag is the empty string, which the test
    [if (el.tags.highway)] takes for false, and the way goes on to the
    water branch. *)
Lemma highway_tag_not_road :
  is_Some (default ∅ (el_tags empty_highway_way) !! "highway") /\
  roads (parseOSMData (mkData (two_nodes ++ [empty_highway_way]))) = [] /\
  waterWays (parseOSMData (mkData (two_nodes ++ [empty_highway_way])))
  = [mkShape [mkPoint 52 13; mkPoint (5201 # 100) (1301 # 100)]].
Proof.
  split; [|split].
  - exists EmptyString. vm_compute. reflexivity.
  - vm_compute. reflexivity.
  - vm_compute. reflexivity.
Qed.

(** C5, as the code has it.  On a way that kept two or more points the
    first matching rule wins, in this order:
    - a [highway] tag with a non-empty value makes it a road whose
      subtype is that value, whatever its other tags;
    - otherwise [natural=water] or a [waterway] tag with a non-empty
      value makes it a water feature, polygon or line by the ring test;
    - otherwise [leisure=park] or [landuse=grass] makes it a park
      candidate, kept when closed;
    - otherwise it is dropped.
    The scenario graph (two nodes, one way tagged [highway=primary])
    yields one road of subtype [primary] with two points and nothing
    else. *)
Theorem tag_precedence (tbl : gmap Z GeoPoint) (acc : Buckets)
        (el : Element) (ids : list Z) (tags : gmap string string) :
  el_type el = "way" -> el_nodes el = Some ids -> el_tags el = Some tags ->
  (2 <= length (resolve tbl ids))%nat ->
  let r := classifyElement tbl acc el in
  let coords := resolve tbl ids in
  let water := tags !! "natural" = Some "water" \/ hasTag tags "waterway" in
  let park := tags !! "leisure" = Some "park" \/ tags !! "landuse" = Some "grass" in
  (forall hw, tags !! "highway" = Some hw -> hw ≠ EmptyString ->
              r = pushRoad acc (mkRoad hw coords)) /\
  (~ hasTag tags "highway" -> water ->
   r = if isClosed ids then pushWaterPolygon acc (mkShape coords)
       else pushWaterWay acc (mkShape coords)) /\
  (~ hasTag tags "highway" -> ~ water -> park ->
   r = if isClosed ids then pushPark acc (mkShape coords) else acc) /\
  (~ hasTag tags "highway" -> ~ water -> ~ park -> r = acc) /\
  parseOSMData scenario_primary
  = mkClassified [mkRoad "primary" [mkPoint 52 13; mkPoint (5201 # 100) (1301 # 100)]]
                 [] [] []
                 (<[2 := mkPoint (5201 # 100) (1301 # 100)]> (<[1 := mkPoint 52 13]> ∅)).
Proof.
  intros Hty Hids Htags Hlen r coords water park.
  subst r. rewrite (classifyElement_way tbl acc el ids tags Hty Hids Htags Hlen).
  unfold roadTagged. split; [|split; [|split; [|split]]].
  - intros hw Hhw Hne.
    rewrite (proj2 (hasTag_truthy tags "highway")) by (by exists hw).
    by rewrite Hhw.
  - intros Hroad Hwater. rewrite (not_hasTag_truthy _ _ Hroad).
    apply waterTagged_true in Hwater. by rewrite Hwater.
  - intros Hroad Hnw Hpark. rewrite (not_hasTag_truthy _ _ Hroad).
    rewrite (not_true_false (waterTagged tags)) by (by rewrite waterTagged_true).
    apply parkTagged_true in Hpark. by rewrite Hpark.
  - intros Hroad Hnw Hnp. rewrite (not_hasTag_truthy _ _ Hroad).
    rewrite (not_true_false (waterTagged tags)) by (by rewrite waterTagged_true).
    by rewrite (not_true_false (parkTagged tags)) by (by rewrite parkTagged_true).
  - vm_compute. reflexivity.
Qed.

Lemma tag_precedence_witness :
  classifyElement (buildNodes two_nodes) noBuckets primary_way
  = pushRoad noBuckets (mkRoad "primary" (resolve (buildNodes two_nodes) [1; 2])).
Proof.
  refine (proj1 (tag_precedence (buildNodes two_nodes) noBuckets primary_way [1; 2]
                   (list_to_map [("highway", "primary")])
                   eq_refl eq_refl eq_refl _) "primary" _ _).
  - vm_compute. lia.
  - vm_compute. reflexivity.
  - discriminate.
Defined.

(** ** C3: loading a theme *)

Section LoadTheme.
Context {World : Type}.
Variable http_get_theme : string -> World -> (JsError + Response Theme) * World.

(** C3, as the code has it.  [loadTheme] never throws.  When the theme
    file cannot be fetched, is answered with a non-success status, or
    does not parse, the current theme becomes the fixed fallback theme,
    whole, and the failure is written to the console.  When the file
    parses, the parsed object becomes the current theme as it is,
    whatever keys it has, and nothing is reported. *)
Theorem loadTheme_fallback (themeName : string) (st : State World) :
  let url := "themes/" ++ themeName ++ ".json" in
  let answer := fst (http_get_theme url (world st)) in
  let w := snd (http_get_theme url (world st)) in
  let failed e :=
      loadTheme http_get_theme themeName st
      = (inr fallbackTheme,
         mkState w (Some fallbackTheme)
                 (events st ++ [EvFetch url; EvConsoleError "Error loading theme:" e])) in
  (forall e, answer = inl e -> failed e) /\
  (forall response,
      answer = inr response -> ok response = false ->
      failed (mkError ("Theme '" ++ themeName ++ "' not found"))) /\
  (forall response e,
      answer = inr response -> ok response = true -> json response = inl e ->
      failed e) /\
  (forall response theme,
      answer = inr response -> ok response = true -> json response = inr theme ->
      loadTheme http_get_theme themeName st
      = (inr theme, mkState w (Some theme) (events st ++ [EvFetch url]))) /\
  (exists theme st',
      loadTheme http_get_theme themeName st = (inr theme, st') /\
      currentTheme st' = Some theme).
Proof.
  intros url answer w failed. subst failed answer w.
  unfold loadTheme, try_catch, bind, fetchTheme, emit, setCurrentTheme, ret, throw.
  fold url. destruct (http_get_theme url (world st)) as [[e|response] w]; simpl.
  - split; [|split; [|split; [|split]]]; try (intros; discriminate).
    + intros e' [= <-]. by rewrite <- app_assoc.
    + eauto.
  - destruct (ok response) eqn:Hok; simpl.
    + destruct (json response) as [e|theme] eqn:Hjson; simpl.
      * split; [|split; [|split; [|split]]]; try (intros; discriminate).
        -- intros r Hr. injection Hr as <-. congruence.
        -- intros r e' Hr _ He. injection Hr as <-.
           rewrite Hjson in He. injection He as <-. by rewrite <- app_assoc.
        -- intros r t Hr _ Ht. injection Hr as <-. congruence.
        -- eauto.
      * split; [|split; [|split; [|split]]]; try (intros; discriminate).
        -- intros r Hr. injection Hr as <-. congruence.
        -- intros r e' Hr _ He. injection Hr as <-. congruence.
        -- intros r t Hr _ Ht. injection Hr as <-.
           rewrite Hjson in Ht. by injection Ht as <-.
        -- eauto.
    + split; [|split; [|split; [|split]]]; try (intros; discriminate).
      * intros r Hr _. by rewrite <- app_assoc.
      * intros r e' Hr Hok'. injection Hr as <-. congruence.
      * intros r t Hr Hok'. injection Hr as <-. congruence.
      * eauto.
Qed.
End LoadTheme.

Lemma loadTheme_fallback_witness :
  loadTheme scripted "noir" (initialState [inl (mkError "Failed to fetch")])
  = (inr fallbackTheme,
     mkState [] (Some fallbackTheme)
             [EvFetch "themes/noir.json";
              EvConsoleError "Error loading theme:" (mkError "Failed to fetch")]).
Proof.
  apply (proj1 (loadTheme_fallback scripted "noir"
                  (initialState [inl (mkError "Failed to fetch")]))).
  reflexivity.
Defined.

(** A theme file that parses and has every required key but [water] is
    not replaced by the fallback theme: [loadTheme] checks no key. *)
Lemma theme_missing_water_kept :
  List.filter (fun k => bool_decide (theme_without_water !! k = None)) requiredThemeKeys
  = ["water"] /\
  loadTheme scripted "noir"
            (initialState [inr (mkResponse true 200 (inr theme_without_water))])
  = (inr theme_without_water,
     mkState [] (Some theme_without_water) [EvFetch "themes/noir.json"]) /\
  theme_without_water ≠ fallbackTheme.
Proof.
  split; [|split].
  - vm_compute. reflexivity.
  - reflexivity.
  - intros Heq. apply (f_equal (fun t : Theme => t !! "water")) in Heq.
    vm_compute in Heq. discriminate.
Qed.

(** ** C2: the server loop *)

Section FetchOSMData.
Context {World : Type}.
Variable http_post_overpass :
  string -> string -> World -> (JsError + Response OverpassJson) * World.

Local Abbreviation attempt' := (attempt http_post_overpass).
Local Abbreviation tryServers' := (tryServers http_post_overpass).
Local Abbreviation failRun' := (failRun http_post_overpass).

(** One attempt is one call: it succeeds with the classified graph when
    the call resolved, the status was a success and the body was a
    well-shaped graph, and throws otherwise. *)
Lemma attempt_spec serverUrl body st :
  attempt' serverUrl body st
  = (attemptResult (fst (http_post_overpass serverUrl body (world st))),
     mkState (snd (http_post_overpass serverUrl body (world st))) (currentTheme st)
             (events st ++ [EvLoadingText "Fetching map data..."; EvFetch serverUrl])).
Proof.
  unfold attempt, bind, emit, fetchOverpass, attemptResult, await, parseOSMData_json,
    throw, ret. simpl.
  destruct (http_post_overpass serverUrl body (world st)) as [[e|response] w]; simpl.
  - by rewrite <- app_assoc.
  - destruct (ok response); simpl.
    + destruct (json response) as [e|[d|e]]; simpl; by rewrite <- app_assoc.
    + by rewrite <- app_assoc.
Qed.

Lemma fetched_app evs1 evs2 : fetched (evs1 ++ evs2) = (fetched evs1 ++ fetched evs2)%list.
Proof. unfold fetched. apply omap_app. Qed.

Lemma attempt_fetched serverUrl body st res st' :
  attempt' serverUrl body st = (res, st') ->
  fetched (events st') = (fetched (events st) ++ [serverUrl])%list.
Proof.
  rewrite attempt_spec. intros [= _ <-]. simpl. by rewrite fetched_app.
Qed.

Lemma warned_fetched serverUrl e (st : State World) :
  fetched (events (warned serverUrl e st)) = fetched (events st).
Proof. unfold warned. simpl. rewrite fetched_app. simpl. by rewrite app_nil_r. Qed.

Lemma failRun_fetched servers body lastError st lastError' st' :
  failRun' servers body lastError st = Some (lastError', st') ->
  fetched (events st') = (fetched (events st) ++ servers)%list.
Proof.
  revert lastError st. induction servers as [|u rest IH]; intros le st; simpl.
  - intros [= _ <-]. by rewrite app_nil_r.
  - destruct (attempt' u body st) as [[e|r] st1] eqn:Hatt; [|done].
    intros Hrun. rewrite (IH _ _ Hrun), warned_fetched.
    rewrite (attempt_fetched _ _ _ _ _ Hatt). by rewrite <- app_assoc.
Qed.

(** While attempts fail the loop goes on with the rest of the list. *)
Lemma tryServers_after_failures pre rest body lastError st lastError' st' :
  failRun' pre body lastError st = Some (lastError', st') ->
  tryServers' (pre ++ rest) body lastError st = tryServers' rest body lastError' st'.
Proof.
  revert lastError st. induction pre as [|u pre IH]; intros le st; simpl.
  - by intros [= <- <-].
  - unfold try_catch at 1.
    destruct (attempt' u body st) as [[e|r] st1] eqn:Hatt; [|done].
    intros Hrun. unfold bind, emit. simpl. fold (warned u e st1).
    by apply IH.
Qed.

(** C2.  Let the attempts at the servers of [pre], made in list order,
    all fail.
    - If the attempt at the next server [u] succeeds, the loop returns
      the classified payload of [u], and the servers called are [pre]
      and then [u], in that order: none of the later servers [post] is
      called.
    - If [u] is the last server and its attempt fails too, the loop
      throws one error whose message is built from the error of [u]:
      the text [Failed to fetch map data. ...] with the message of that
      error in brackets; every server was called once, in list order.
    - An attempt is one call, and it fails on a rejected call, on a
      non-success status and on a body that does not parse or is not a
      graph; it succeeds with [parseOSMData] of the graph otherwise.
    [fetchOSMData] is this loop over [CONFIG.OVERPASS_SERVERS] with no
    error recorded. *)
Theorem fetch_failover (body : string) (pre post : list string) (u : string)
        (lastError lastError' : option JsError) (st st1 : State World) :
  failRun' pre body lastError st = Some (lastError', st1) ->
  (forall r st2,
      attempt' u body st1 = (inr r, st2) ->
      tryServers' (pre ++ u :: post) body lastError st = (inr r, st2) /\
      fetched (events st2) = (fetched (events st) ++ pre ++ [u])%list) /\
  (forall e st2,
      attempt' u body st1 = (inl e, st2) ->
      tryServers' (pre ++ [u]) body lastError st
      = (inl (allFailedError (Some e)), warned u e st2) /\
      fetched (events (warned u e st2)) = (fetched (events st) ++ pre ++ [u])%list /\
      (message e ≠ EmptyString ->
       message (allFailedError (Some e))
       = "Failed to fetch map data. Please try again in a moment. ("
           ++ message e ++ ")")) /\
  (forall serverUrl st0,
      attempt' serverUrl body st0
      = (attemptResult (fst (http_post_overpass serverUrl body (world st0))),
         mkState (snd (http_post_overpass serverUrl body (world st0))) (currentTheme st0)
                 (events st0 ++ [EvLoadingText "Fetching map data..."; EvFetch serverUrl]))) /\
  fetchOSMData http_post_overpass body = tryServers' CONFIG_OVERPASS_SERVERS body None.
Proof.
  intros Hrun. split; [|split; [|split]].
  - intros r st2 Hatt.
    rewrite (tryServers_after_failures _ _ _ _ _ _ _ Hrun). simpl.
    unfold try_catch. rewrite Hatt. split; [done|].
    rewrite (attempt_fetched _ _ _ _ _ Hatt), (failRun_fetched _ _ _ _ _ _ Hrun).
    by rewrite <- app_assoc.
  - intros e st2 Hatt.
    rewrite (tryServers_after_failures _ _ _ _ _ _ _ Hrun). cbn [tryServers].
    unfold try_catch. rewrite Hatt. split; [done|]. split.
    + rewrite warned_fetched, (attempt_fetched _ _ _ _ _ Hatt),
        (failRun_fetched _ _ _ _ _ _ Hrun).
      by rewrite <- app_assoc.
    + intros Hne. unfold allFailedError, lastErrorText. simpl.
      by destruct (String.eqb_spec (message e) EmptyString).
  - intros serverUrl st0. apply attempt_spec.
  - reflexivity.
Qed.
End FetchOSMData.

Lemma fetch_failover_witness :
  exists st2,
    tryServers scripted_post
               (take 2 CONFIG_OVERPASS_SERVERS ++ [default EmptyString (last CONFIG_OVERPASS_SERVERS)])
               "data=q" None (initialState two_down_one_up)
    = (inr (parseOSMData scenario_primary), st2) /\
    fetched (events st2)
    = (fetched [] ++ take 2 CONFIG_OVERPASS_SERVERS
         ++ [default EmptyString (last CONFIG_OVERPASS_SERVERS)])%list.
Proof.
  refine (ex_intro _ _
            (proj1 (fetch_failover scripted_post "data=q"
                      (take 2 CONFIG_OVERPASS_SERVERS) []
                      (default EmptyString (last CONFIG_OVERPASS_SERVERS))
                      None _ (initialState two_down_one_up) _ eq_refl)
                   _ _ eq_refl)).
Defined.

(** ** Strings *)

Lemma append_nil_l (t : string) : (EmptyString ++ t)%string = t.
Proof. reflexivity. Qed.

Lemma append_cons (c : ascii) (s t : string) :
  (String c s ++ t)%string = String c (s ++ t).
Proof. reflexivity. Qed.

Lemma append_nil_r (s : string) : (s ++ EmptyString)%string = s.
Proof. induction s as [|c s IH]; [done|]. by rewrite append_cons, IH. Qed.

Lemma append_assoc (s t u : string) : ((s ++ t) ++ u)%string = (s ++ (t ++ u))%string.
Proof. induction s as [|c s IH]; [done|]. by rewrite !append_cons, IH. Qed.

Lemma length_append (s t : string) :
  String.length (s ++ t) = (String.length s + String.length t)%nat.
Proof. induction s as [|c s IH]; [done|]. rewrite append_cons. simpl. by rewrite IH. Qed.

Lemma substring_prefix (s t : string) :
  String.substring 0 (String.length s) (s ++ t) = s.
Proof.
  induction s as [|c s IH].
  - rewrite append_nil_l. by destruct t.
  - rewrite append_cons. simpl. by rewrite IH.
Qed.

Lemma substring_all (t : string) : String.substring 0 (String.length t) t = t.
Proof. induction t as [|c t IH]; [done|]. simpl. by rewrite IH. Qed.

Lemma substring_0_0 (t : string) : String.substring 0 0 t = EmptyString.
Proof. by destruct t. Qed.

Lemma substring_whole (k : nat) (t : string) :
  String.length t = k -> String.substring 0 k t = t.
Proof. intros <-. apply substring_all. Qed.

Lemma substring_split (k : nat) (s t : string) :
  String.length t = k ->
  String.substring 0 (String.length s) (s ++ t) = s /\
  String.substring (String.length s) k (s ++ t) = t.
Proof.
  intros <-. split; [apply substring_prefix|].
  induction s as [|c s IH].
  - rewrite append_nil_l. apply substring_all.
  - rewrite append_cons. simpl. exact IH.
Qed.

Lemma substring_suffix (s t : string) :
  String.substring (String.length s) (String.length t) (s ++ t) = t.
Proof.
  induction s as [|c s IH].
  - rewrite append_nil_l. apply substring_all.
  - rewrite append_cons. simpl. exact IH.
Qed.

(** ** Decimal digits *)

Lemma digits_fuel_enough (f1 f2 : nat) (n : Z) :
  0 <= n -> n < 2 ^ Z.of_nat f1 -> n < 2 ^ Z.of_nat f2 ->
  (1 <= f1)%nat -> (1 <= f2)%nat ->
  digits_fuel f1 n = digits_fuel f2 n.
Proof.
  revert f2 n. induction f1 as [|f1 IH]; intros f2 n Hn H1 H2 Hf1 Hf2; [lia|].
  destruct f2 as [|f2]; [lia|]. simpl.
  destruct (Z.ltb_spec n 10) as [Hlt|Hge]; [done|].
  rewrite Nat2Z.inj_succ, Z.pow_succ_r in H1, H2 by lia.
  assert (Hq : 0 <= n / 10) by (apply Z.div_pos; lia).
  assert (Hq1 : n / 10 < 2 ^ Z.of_nat f1) by (apply Z.div_lt_upper_bound; lia).
  assert (Hq2 : n / 10 < 2 ^ Z.of_nat f2) by (apply Z.div_lt_upper_bound; lia).
  assert (1 <= f1)%nat.
  { destruct f1; [|lia]. simpl in H1. lia. }
  assert (1 <= f2)%nat.
  { destruct f2; [|lia]. simpl in H2. lia. }
  by rewrite (IH f2 (n / 10)).
Qed.

(** The defining equation of the decimal representation. *)
Lemma decimalDigits_unfold (n : Z) :
  0 <= n ->
  decimalDigits n =
  if n <? 10 then char (digitChar n)
  else (decimalDigits (n / 10) ++ char (digitChar (n mod 10)))%string.
Proof.
  intros Hn. unfold decimalDigits at 1. cbn [digits_fuel].
  destruct (Z.ltb_spec n 10) as [Hlt|Hge]; [done|].
  f_equal. unfold decimalDigits.
  assert (Hlog : 3 <= Z.log2 n) by (apply Z.log2_le_pow2; lia).
  assert (Hq : 0 <= n / 10) by (apply Z.div_pos; lia).
  assert (Hup : n < 2 ^ Z.succ (Z.log2 n)) by (apply Z.log2_spec; lia).
  rewrite Z.pow_succ_r in Hup by lia.
  apply digits_fuel_enough; try lia.
  - rewrite Z2Nat.id by lia. apply Z.div_lt_upper_bound; lia.
  - rewrite Nat2Z.inj_succ, Z2Nat.id by apply Z.log2_nonneg.
    destruct (Z.eq_dec (n / 10) 0) as [->|Hne]; [done|].
    apply Z.log2_spec. lia.
Qed.

Lemma decimalDigits_small (n : Z) :
  0 <= n < 10 -> decimalDigits n = char (digitChar n).
Proof.
  intros Hn. rewrite decimalDigits_unfold by lia.
  by destruct (Z.ltb_spec n 10); [|lia].
Qed.

Lemma decimalDigits_step (n : Z) :
  10 <= n ->
  decimalDigits n = (decimalDigits (n / 10) ++ char (digitChar (n mod 10)))%string.
Proof.
  intros Hn. rewrite decimalDigits_unfold by lia.
  by destruct (Z.ltb_spec n 10); [lia|].
Qed.

Lemma zeros_snoc (k : nat) : (zeros k ++ "0")%string = zeros (S k).
Proof. induction k as [|k IH]; [done|]. simpl. rewrite append_cons. by rewrite IH. Qed.

Lemma lastDigits_zero (k : nat) : lastDigits k 0 = zeros k.
Proof.
  induction k as [|k IH]; [done|].
  cbn [lastDigits]. change (0 / 10) with 0. rewrite IH. apply zeros_snoc.
Qed.

Lemma length_lastDigits (k : nat) (n : Z) : String.length (lastDigits k n) = k.
Proof.
  revert n. induction k as [|k IH]; intros n; [done|].
  cbn [lastDigits]. rewrite length_append, IH. simpl. lia.
Qed.

Lemma length_decimalDigits_pos (n : Z) :
  0 <= n -> (1 <= String.length (decimalDigits n))%nat.
Proof.
  intros Hn. rewrite decimalDigits_unfold by done.
  destruct (n <? 10); [simpl; lia|]. rewrite length_append. simpl. lia.
Qed.

(** Padding with zeros to [k] digits gives the last [k] digits. *)
Lemma decimalDigits_pad (k : nat) (n : Z) :
  (1 <= k)%nat -> 0 <= n < 10 ^ Z.of_nat k ->
  (zeros (k - String.length (decimalDigits n)) ++ decimalDigits n)%string
  = lastDigits k n.
Proof.
  revert n. induction k as [|k IH]; intros n Hk Hn; [lia|].
  cbn [lastDigits].
  destruct (Z.ltb_spec n 10) as [Hlt|Hge].
  - rewrite decimalDigits_small by lia. simpl String.length.
    replace (S k - 1)%nat with k by lia.
    rewrite Z.div_small, Z.mod_small by lia. by rewrite lastDigits_zero.
  - rewrite decimalDigits_step by lia.
    rewrite length_append. simpl String.length.
    replace (S k - (String.length (decimalDigits (n / 10)) + 1))%nat
      with (k - String.length (decimalDigits (n / 10)))%nat by lia.
    rewrite <- append_assoc. f_equal.
    rewrite Nat2Z.inj_succ, Z.pow_succ_r in Hn by lia.
    apply IH.
    + destruct k; [|lia]. simpl in Hn. lia.
    + split; [apply Z.div_pos; lia|]. apply Z.div_lt_upper_bound; lia.
Qed.

(** From [10^k] on, the digits are those of the quotient by [10^k]
    followed by the last [k] digits. *)
Lemma decimalDigits_split (k : nat) (n : Z) :
  10 ^ Z.of_nat k <= n ->
  decimalDigits n = (decimalDigits (n / 10 ^ Z.of_nat k) ++ lastDigits k n)%string.
Proof.
  revert n. induction k as [|k IH]; intros n Hn.
  - simpl. by rewrite Z.div_1_r, append_nil_r.
  - rewrite Nat2Z.inj_succ, Z.pow_succ_r in * by lia.
    assert (Hpos : 0 < 10 ^ Z.of_nat k) by (apply Z.pow_pos_nonneg; lia).
    cbn [lastDigits]. rewrite decimalDigits_step by lia.
    rewrite (IH (n / 10)) by (apply Z.div_le_lower_bound; lia).
    rewrite Z.div_div by lia. by rewrite append_assoc.
Qed.

Lemma length_decimalDigits_le (k : nat) (n : Z) :
  (1 <= k)%nat -> 0 <= n ->
  (String.length (decimalDigits n) <= k)%nat <-> n < 10 ^ Z.of_nat k.
Proof.
  intros Hk Hn. split.
  - intros Hlen. destruct (Z.lt_ge_cases n (10 ^ Z.of_nat k)) as [|Hge]; [done|].
    rewrite (decimalDigits_split k n Hge), length_append, length_lastDigits in Hlen.
    assert (0 <= n / 10 ^ Z.of_nat k).
    { apply Z.div_pos; [lia|]. apply Z.pow_pos_nonneg; lia. }
    pose proof (length_decimalDigits_pos (n / 10 ^ Z.of_nat k)). lia.
  - intros Hlt.
    pose proof (decimalDigits_pad k n Hk (conj Hn Hlt)) as Hpad.
    apply (f_equal String.length) in Hpad.
    rewrite length_append, length_lastDigits in Hpad.
    pose proof (length_decimalDigits_pos n Hn). lia.
Qed.

(** ** [toFixed] below [10^21] *)

Lemma nearestScaled_nonneg (x : Q) (f : nat) : (0 <= x)%Q -> 0 <= nearestScaled x f.
Proof.
  intros Hx. unfold nearestScaled.
  change 0 with (Qfloor 0). apply Qfloor_resp_le.
  assert (H10 : (0 <= inject_Z (10 ^ Z.of_nat f))%Q).
  { change 0%Q with (inject_Z 0). rewrite <- Zle_Qle. apply Z.pow_nonneg. lia. }
  pose proof (Qmult_le_0_compat _ _ Hx H10) as Hm.
  apply (Qle_trans _ (x * inject_Z (10 ^ Z.of_nat f) + 0)).
  - by rewrite Qplus_0_r.
  - apply Qplus_le_compat; [apply Qle_refl|done].
Qed.

Lemma Qlt_bool_false (x y : Q) : (y <= x)%Q -> Qlt_bool x y = false.
Proof.
  intros H. unfold Qlt_bool. by rewrite (proj2 (Qle_bool_iff y x) H).
Qed.

Lemma Qle_bool_false (x y : Q) : (y < x)%Q -> Qle_bool x y = false.
Proof.
  intros H. destruct (Qle_bool x y) eqn:E; [|done].
  apply Qle_bool_iff in E. exfalso. by apply (Qle_not_lt _ _ E).
Qed.

(** Below [10^21] and with at least one fraction digit, [toFixed] writes
    the quotient of the rounded value by [10^f], a point, and its last
    [f] digits. *)
Lemma toFixed_digits (numberToString : Q -> string) (x : Q) (f : nat) :
  (0 <= x)%Q -> (x < inject_Z (10 ^ 21))%Q -> (1 <= f)%nat ->
  toFixed numberToString x f
  = (decimalDigits (nearestScaled x f / 10 ^ Z.of_nat f) ++ "."
       ++ lastDigits f (nearestScaled x f))%string.
Proof.
  intros Hx Hbig Hf. unfold toFixed.
  rewrite (Qlt_bool_false x 0 Hx), (Qle_bool_false _ _ Hbig), append_nil_l.
  pose proof (nearestScaled_nonneg x f Hx) as Hn.
  set (n := nearestScaled x f) in *.
  assert (Hm : (if n =? 0 then "0" else decimalDigits n) = decimalDigits n).
  { destruct (Z.eqb_spec n 0) as [->|_]; [|done]. by rewrite decimalDigits_small. }
  rewrite Hm. clear Hm.
  destruct (Nat.eqb_spec f 0) as [|_]; [lia|].
  destruct (Nat.leb_spec (String.length (decimalDigits n)) f) as [Hle|Hgt].
  - pose proof (proj1 (length_decimalDigits_le f n Hf Hn) Hle) as Hlt.
    replace (f + 1 - String.length (decimalDigits n))%nat
      with (S (f - String.length (decimalDigits n))) by lia.
    cbn [zeros]. rewrite append_cons.
    rewrite (decimalDigits_pad f n Hf (conj Hn Hlt)).
    replace (f + 1 - f)%nat with 1%nat by lia.
    rewrite Z.div_small by lia. rewrite decimalDigits_small by lia.
    cbn [String.substring].
    rewrite substring_0_0, (substring_whole f) by apply length_lastDigits.
    done.
  - assert (Hge : 10 ^ Z.of_nat f <= n).
    { destruct (Z.lt_ge_cases n (10 ^ Z.of_nat f)) as [Hlt|]; [|done].
      apply (length_decimalDigits_le f n Hf Hn) in Hlt. lia. }
    rewrite (decimalDigits_split f n Hge).
    rewrite length_append, length_lastDigits.
    replace (String.length (decimalDigits (n / 10 ^ Z.of_nat f)) + f - f)%nat
      with (String.length (decimalDigits (n / 10 ^ Z.of_nat f))) by lia.
    destruct (substring_split f (decimalDigits (n / 10 ^ Z.of_nat f)) (lastDigits f n)
                (length_lastDigits f n)) as [-> ->].
    done.
Qed.

Lemma lastDigits_four (n : Z) :
  lastDigits 4 n
  = (char (digitChar (n / 1000 mod 10)) ++ char (digitChar (n / 100 mod 10))
       ++ char (digitChar (n / 10 mod 10)) ++ char (digitChar (n mod 10)))%string.
Proof.
  cbn [lastDigits]. rewrite append_nil_l, !Z.div_div by lia.
  by rewrite !append_assoc.
Qed.

Lemma toFixed_fourDecimals (numberToString : Q -> string) (x : Q) :
  (0 <= x)%Q -> (x < inject_Z (10 ^ 21))%Q ->
  toFixed numberToString x 4 = fourDecimals x.
Proof.
  intros Hx Hbig. rewrite toFixed_digits by (done || lia).
  unfold fourDecimals. by rewrite lastDigits_four.
Qed.

(** ** What the digits denote *)

Lemma digitsValue_acc_append (s t : string) (acc : Z) :
  digitsValue_acc (s ++ t) acc = digitsValue_acc t (digitsValue_acc s acc).
Proof.
  revert acc. induction s as [|c s IH]; intros acc; [done|].
  rewrite append_cons. simpl. apply IH.
Qed.

Lemma digitChar_value (d : Z) :
  0 <= d < 10 -> Z.of_nat (nat_of_ascii (digitChar d)) - 48 = d.
Proof.
  intros Hd. unfold digitChar. rewrite nat_ascii_embedding by lia. lia.
Qed.

Lemma digitsValue_acc_lastDigits (k : nat) (n acc : Z) :
  0 <= n ->
  digitsValue_acc (lastDigits k n) acc = acc * 10 ^ Z.of_nat k + n mod 10 ^ Z.of_nat k.
Proof.
  revert n acc. induction k as [|k IH]; intros n acc Hn.
  - simpl. rewrite Z.mod_1_r. lia.
  - cbn [lastDigits]. rewrite digitsValue_acc_append, IH by (apply Z.div_pos; lia).
    cbn [digitsValue_acc char].
    rewrite digitChar_value by (apply Z.mod_pos_bound; lia).
    rewrite Nat2Z.inj_succ, Z.pow_succ_r by lia.
    assert (Hpos : 0 < 10 ^ Z.of_nat k) by (apply Z.pow_pos_nonneg; lia).
    rewrite Z.rem_mul_r by lia. ring.
Qed.

Lemma digitsValue_acc_zeros (k : nat) : digitsValue_acc (zeros k) 0 = 0.
Proof. induction k as [|k IH]; [done|]. simpl. exact IH. Qed.

(** Reading back the digits of [n] gives [n]. *)
Lemma digitsValue_decimalDigits (n : Z) : 0 <= n -> digitsValue (decimalDigits n) = n.
Proof.
  intros Hn. set (k := S (Z.to_nat n)).
  assert (Hk : n < 10 ^ Z.of_nat k).
  { subst k. rewrite Nat2Z.inj_succ, Z2Nat.id by lia.
    apply (Z.lt_trans _ (Z.succ n)); [lia|]. apply Z.pow_gt_lin_r; lia. }
  pose proof (decimalDigits_pad k n ltac:(lia) (conj Hn Hk)) as Hpad.
  apply (f_equal (fun s => digitsValue_acc s 0)) in Hpad.
  rewrite digitsValue_acc_append, digitsValue_acc_zeros in Hpad.
  rewrite digitsValue_acc_lastDigits in Hpad by done.
  unfold digitsValue. rewrite Hpad, Z.mod_small; lia.
Qed.

Lemma digitsValue_lastDigits (k : nat) (n : Z) :
  0 <= n -> digitsValue (lastDigits k n) = n mod 10 ^ Z.of_nat k.
Proof.
  intros Hn. unfold digitsValue. rewrite digitsValue_acc_lastDigits by done. lia.
Qed.

(** ** Rounding *)

(** [nearestScaled x f] is the integer nearest to [x * 10^f], and the
    larger of the two nearest ones when there are two. *)
Lemma nearestScaled_nearest (x : Q) (f : nat) (k : Z) :
  let y := (x * inject_Z (10 ^ Z.of_nat f))%Q in
  let n := nearestScaled x f in
  (Qabs (inject_Z n - y) <= Qabs (inject_Z k - y))%Q /\
  ((Qabs (inject_Z k - y) == Qabs (inject_Z n - y))%Q -> k <= n).
Proof.
  intros y n.
  pose proof (Qfloor_le (y + (1 # 2))) as Hlo.
  pose proof (Qlt_floor (y + (1 # 2))) as Hhi.
  fold y in Hlo, Hhi. change (Qfloor (y + (1 # 2))) with n in Hlo, Hhi.
  rewrite inject_Z_plus in Hhi. change (inject_Z 1) with 1%Q in Hhi.
  assert (Hn : (Qabs (inject_Z n - y) <= 1 # 2)%Q).
  { apply Qabs_Qle_condition. split; lra. }
  destruct (Z.lt_trichotomy k n) as [Hlt|[->|Hgt]].
  - assert (Hk : (inject_Z k + 1 <= inject_Z n)%Q).
    { change 1%Q with (inject_Z 1). rewrite <- inject_Z_plus, <- Zle_Qle. lia. }
    assert (Habs : (Qabs (inject_Z k - y) == - (inject_Z k - y))%Q).
    { apply Qabs_neg. lra. }
    split.
    + rewrite Habs. apply (Qle_trans _ _ _ Hn). lra.
    + intros _. lia.
  - split; [apply Qle_refl|]. intros _. lia.
  - assert (Hk : (inject_Z n + 1 <= inject_Z k)%Q).
    { change 1%Q with (inject_Z 1). rewrite <- inject_Z_plus, <- Zle_Qle. lia. }
    assert (Habs : (Qabs (inject_Z k - y) == inject_Z k - y)%Q).
    { apply Qabs_pos. lra. }
    split.
    + rewrite Habs. apply (Qle_trans _ _ _ Hn). lra.
    + intros Heq. exfalso. rewrite Habs in Heq.
      assert (Hlt : (Qabs (inject_Z n - y) < inject_Z k - y)%Q).
      { apply (Qle_lt_trans _ _ _ Hn). lra. }
      rewrite Heq in Hlt. by apply (Qlt_irrefl _ Hlt).
Qed.

(** ** C8: the coordinate caption *)

Lemma hemisphere_Qle_bool (v : Q) (nonneg neg : string) :
  (if Qle_bool 0 v then nonneg else neg) = hemisphere v nonneg neg.
Proof.
  unfold hemisphere. destruct (Qlt_le_dec v 0) as [Hlt|Hle].
  - by rewrite (Qle_bool_false _ _ Hlt).
  - by rewrite (proj2 (Qle_bool_iff 0 v) Hle).
Qed.

(** C8.  For every latitude and longitude (every value of magnitude
    below [10^21], the range in which [toFixed] writes digits), the
    caption is the absolute latitude with four decimals, the degree sign,
    a space and [N] or [S], then [ / ], then the absolute longitude with
    four decimals, the degree sign, a space and [E] or [W]; [N] and [E]
    stand for a non-negative value.  "With four decimals" is: the digits
    of the integer part, a point and exactly four digits, which together
    denote the multiple of [1/10000] nearest to the value, the upper one
    when the value lies half way. *)
Theorem coordsText_format (numberToString : Q -> string) (lat lon : Q) :
  (Qabs lat < inject_Z (10 ^ 21))%Q ->
  (Qabs lon < inject_Z (10 ^ 21))%Q ->
  coordsText numberToString lat lon = captionSpec lat lon /\
  (forall x : Q,
      (0 <= x)%Q ->
      let r := nearestScaled x 4 in
      fourDecimals x = (decimalDigits (r / 10000) ++ "." ++ lastDigits 4 r)%string /\
      digitsValue (decimalDigits (r / 10000)) = r / 10000 /\
      String.length (lastDigits 4 r) = 4%nat /\
      digitsValue (lastDigits 4 r) = r mod 10000 /\
      (forall k : Z,
          (Qabs (inject_Z r - x * inject_Z 10000) <= Qabs (inject_Z k - x * inject_Z 10000))%Q /\
          ((Qabs (inject_Z k - x * inject_Z 10000) == Qabs (inject_Z r - x * inject_Z 10000))%Q
           -> k <= r))).
Proof.
  intros Hlat Hlon. split.
  - unfold coordsText, captionSpec.
    rewrite (toFixed_fourDecimals _ (Qabs lat) (Qabs_nonneg lat) Hlat).
    rewrite (toFixed_fourDecimals _ (Qabs lon) (Qabs_nonneg lon) Hlon).
    by rewrite !hemisphere_Qle_bool.
  - intros x Hx r.
    pose proof (nearestScaled_nonneg x 4 Hx) as Hr. fold r in Hr.
    split; [|split; [|split; [|split]]].
    + unfold fourDecimals. fold r. by rewrite lastDigits_four.
    + apply digitsValue_decimalDigits. apply Z.div_pos; lia.
    + apply length_lastDigits.
    + by rewrite digitsValue_lastDigits.
    + intros k. apply (nearestScaled_nearest x 4 k).
Qed.

Lemma coordsText_format_witness :
  coordsText (fun _ => EmptyString) (5252 # 100) (-13405 # 1000)
  = captionSpec (5252 # 100) (-13405 # 1000).
Proof.
  refine (proj1 (coordsText_format (fun _ => EmptyString)
                   (5252 # 100) (-13405 # 1000) _ _)).
  - vm_compute. reflexivity.
  - vm_compute. reflexivity.
Defined.

(** ** Worked inputs *)

Example scenario_primary_roads :
  roads (parseOSMData scenario_primary)
  = [mkRoad "primary" [mkPoint 52 13; mkPoint (5201 # 100) (1301 # 100)]].
Proof. vm_compute. reflexivity. Qed.

Example caption_berlin :
  coordsText (fun _ => EmptyString) (5252 # 100) (-13405 # 1000) = captionSpec (5252 # 100) (-13405 # 1000).
Proof. vm_compute. reflexivity. Qed.

Example caption_berlin_text :
  coordsText (fun _ => EmptyString) (5252 # 100) (-13405 # 1000)
  = "52.5200" ++ degreeSign ++ " N / 13.4050" ++ degreeSign ++ " W".
Proof. vm_compute. reflexivity. Qed.

Example caption_small :
  coordsText (fun _ => EmptyString) (-1 # 100000) (99999 # 1000000)
  = "0.0000" ++ degreeSign ++ " S / 0.1000" ++ degreeSign ++ " E".
Proof. vm_compute. reflexivity. Qed.

(** The closed-ring scenario: one water polygon with four points, the
    closing point repeated, and no water line. *)
Example scenario_pond_classified :
  waterPolygons (parseOSMData scenario_pond)
  = [mkShape [mkPoint 52 13; mkPoint (5201 # 100) 13;
              mkPoint (5201 # 100) (1301 # 100); mkPoint 52 13]] /\
  waterWays (parseOSMData scenario_pond) = [] /\
  roads (parseOSMData scenario_pond) = [] /\
  parks (parseOSMData scenario_pond) = [].
Proof. vm_compute. by repeat split. Qed.

(** Roads come out in table order, an unknown subtype first, equal
    subtypes in input order. *)
Example roads_sorted_example :
  map road_type
      (array_sort roadCompare
         [mkRoad "motorway" []; mkRoad "service" []; mkRoad "track" [];
          mkRoad "primary" []; mkRoad "service" [mkPoint 0 0]; mkRoad "residential" []])
  = ["track"; "service"; "service"; "residential"; "primary"; "motorway"] /\
  map road_coords
      (List.filter (fun r => String.eqb (road_type r) "service")
         (array_sort roadCompare
            [mkRoad "motorway" []; mkRoad "service" []; mkRoad "track" [];
             mkRoad "primary" []; mkRoad "service" [mkPoint 0 0]; mkRoad "residential" []]))
  = [[]; [mkPoint 0 0]].
Proof. vm_compute. by split. Qed.

(** Two servers down, the third up: three calls, the graph of the third. *)
Example fetch_two_down_one_up :
  fetchOSMData scripted_post "data=q" (initialState two_down_one_up)
  = (inr (parseOSMData scenario_primary),
     mkState [] None
       [EvLoadingText "Fetching map data...";
        EvFetch "https://overpass-api.de/api/interpreter";
        EvConsoleWarn "Overpass server https://overpass-api.de/api/interpreter failed:"
                      "Failed to fetch";
        EvLoadingText "Fetching map data...";
        EvFetch "https://overpass.kumi.systems/api/interpreter";
        EvConsoleWarn "Overpass server https://overpass.kumi.systems/api/interpreter failed:"
                      "Server returned 503";
        EvLoadingText "Fetching map data...";
        EvFetch "https://maps.mail.ru/osm/tools/overpass/api/interpreter"]).
Proof. reflexivity. Qed.

(** All three servers down: the error of the third is the one reported. *)
Example fetch_all_down :
  fst (fetchOSMData scripted_post "data=q" (initialState all_down))
  = inl (mkError "Failed to fetch map data. Please try again in a moment. (Server returned 504)") /\
  fetched (events (snd (fetchOSMData scripted_post "data=q" (initialState all_down))))
  = CONFIG_OVERPASS_SERVERS.
Proof. vm_compute. by split. Qed.

(** * Further properties of the classifier *)

Lemma classifyAll_roads tbl els :
  b_roads (classifyAll tbl els) = omap (roadOf tbl) els.
Proof.
  induction els as [|el els IH]; [done|].
  rewrite classifyAll_cons, classifyElement_category. simpl.
  rewrite IH. unfold roadOf.
  destruct (categoryOf tbl el) as [[]|]; simpl; repeat case_decide; naive_solver.
Qed.

Lemma categoryOf_Some_points tbl el c :
  categoryOf tbl el = Some c -> (2 <= length (resolve tbl (memberIds el)))%nat.
Proof.
  unfold categoryOf, memberIds.
  destruct (String.eqb (el_type el) "way"); [|done].
  destruct (el_nodes el) as [ids|]; [|done].
  destruct (el_tags el) as [tags|]; [|done]. simpl.
  destruct (Nat.ltb_spec (length (resolve tbl ids)) 2); [done|]. lia.
Qed.

Lemma categoryOf_road_type tbl el :
  categoryOf tbl el = Some CRoad ->
  default EmptyString (default ∅ (el_tags el) !! "highway") ≠ EmptyString.
Proof.
  unfold categoryOf, roadTagged.
  destruct (String.eqb (el_type el) "way"); [|done].
  destruct (el_nodes el) as [ids|]; [|done].
  destruct (el_tags el) as [tags|]; [|done]. simpl.
  destruct (length (resolve tbl ids) <? 2)%nat; [done|].
  destruct (truthy (tags !! "highway")) eqn:Hhw.
  - apply truthy_true in Hhw as (s & -> & Hs). done.
  - destruct (waterTagged tags); [by destruct (isClosed ids)|].
    destruct (parkTagged tags); [by destruct (isClosed ids)|done].
Qed.

Lemma shapeOf_points tbl c el s :
  shapeOf tbl c el = Some s -> (2 <= length (shape_coords s))%nat.
Proof.
  unfold shapeOf. case_decide as Hc; [|done]. intros [= <-]. simpl.
  by eapply categoryOf_Some_points.
Qed.

Lemma parse_roads_omap (data : OsmData) :
  roads (parseOSMData data)
  ≡ₚ omap (roadOf (buildNodes (elements data))) (elements data).
Proof.
  unfold parseOSMData. simpl. rewrite <- classifyAll_roads.
  apply (array_sort_perm roadPriority).
Qed.

Lemma parse_roads_invariant (data : OsmData) :
  Forall (fun rd => (2 <= length (road_coords rd))%nat /\ road_type rd ≠ EmptyString)
         (roads (parseOSMData data)).
Proof.
  rewrite parse_roads_omap. apply Forall_forall. intros rd Hrd.
  apply list_elem_of_omap in Hrd as (el & _ & Hel).
  unfold roadOf in Hel. case_decide as Hc; [|done]. injection Hel as <-. simpl.
  split; [by eapply categoryOf_Some_points|by eapply categoryOf_road_type].
Qed.

(** X1.  Whatever the input, every geometry [parseOSMData] returns has
    at least two points, and every road has a non-empty subtype. *)
Theorem parseOSMData_geometry_invariant (data : OsmData) :
  let r := parseOSMData data in
  Forall (fun rd => (2 <= length (road_coords rd))%nat /\ road_type rd ≠ EmptyString)
         (roads r) /\
  Forall (fun s => (2 <= length (shape_coords s))%nat) (waterWays r) /\
  Forall (fun s => (2 <= length (shape_coords s))%nat) (waterPolygons r) /\
  Forall (fun s => (2 <= length (shape_coords s))%nat) (parks r).
Proof.
  intros r. set (tbl := buildNodes (elements data)).
  destruct (classifyAll_shapes tbl (elements data)) as (H1 & H2 & H3).
  assert (Hshape : forall c, Forall (fun s => (2 <= length (shape_coords s))%nat)
                                    (omap (shapeOf tbl c) (elements data))).
  { intros c. apply Forall_forall. intros s Hs.
    apply list_elem_of_omap in Hs as (el & _ & Hel). by eapply shapeOf_points. }
  split; [|split; [|split]].
  - apply parse_roads_invariant.
  - change (waterWays r) with (b_waterWays (classifyAll tbl (elements data))).
    rewrite H1. apply Hshape.
  - change (waterPolygons r) with (b_waterPolygons (classifyAll tbl (elements data))).
    rewrite H2. apply Hshape.
  - change (parks r) with (b_parks (classifyAll tbl (elements data))).
    rewrite H3. apply Hshape.
Qed.

(** ** The node table *)

Lemma foldl_addNode_lookup (els : list Element) (acc : gmap Z GeoPoint) (i : Z) :
  foldl addNode acc els !! i
  = match last (nodesWithId i els) with
    | Some el => Some (pointOf el)
    | None => acc !! i
    end.
Proof.
  revert acc. induction els as [|el els IH]; intros acc; [done|].
  simpl foldl. rewrite IH. unfold nodesWithId, isNode in *. simpl List.filter.
  unfold addNode at 1.
  destruct (String.eqb (el_type el) "node") eqn:Hty; simpl.
  - destruct (Z.eqb_spec (el_id el) i) as [->|Hne].
    + rewrite last_cons.
      destruct (last _); [done|]. by rewrite lookup_insert_eq.
    + destruct (last _); [done|]. by rewrite lookup_insert_ne.
  - done.
Qed.

(** X2.  The node table maps an id to the coordinates of the last node
    element of the input that carries it, and has no entry for an id that
    no node element carries; elements of other types never enter it. *)
Theorem nodes_lookup_last (data : OsmData) (i : Z) :
  nodes (parseOSMData data) !! i
  = pointOf <$> last (nodesWithId i (elements data)).
Proof.
  unfold parseOSMData. simpl. unfold buildNodes.
  rewrite foldl_addNode_lookup. by destruct (last _).
Qed.

(** ** Order among roads *)

(** X3.  Roads of equal priority, in particular roads of the same
    subtype, leave the classifier in the order their ways have in the
    input: the sort is stable. *)
Theorem roads_equal_priority_keep_input_order (data : OsmData) (k : Z) :
  List.filter (fun r => roadPriority r =? k) (roads (parseOSMData data))
  = List.filter (fun r => roadPriority r =? k)
                (omap (roadOf (buildNodes (elements data))) (elements data)).
Proof.
  unfold parseOSMData. simpl. rewrite <- classifyAll_roads.
  apply (array_sort_stable roadPriority).
Qed.

Lemma array_sort_sorted_id {A} (key : A -> Z) (l : list A) :
  StronglySorted (fun a b => key a <= key b) l ->
  array_sort (fun a b => key a - key b) l = l.
Proof. intros Hs. symmetry. by apply array_sort_unique. Qed.

(** X4.  When the roads are collected already in priority order, the
    sort leaves them as they are: [parseOSMData] then returns the roads
    in input order. *)
Theorem roads_sorted_input_unchanged (data : OsmData) :
  StronglySorted (fun a b => roadPriority a <= roadPriority b)
                 (omap (roadOf (buildNodes (elements data))) (elements data)) ->
  roads (parseOSMData data)
  = omap (roadOf (buildNodes (elements data))) (elements data).
Proof.
  intros Hs. unfold parseOSMData. simpl. rewrite classifyAll_roads.
  by apply (array_sort_sorted_id roadPriority).
Qed.

Lemma roads_sorted_input_unchanged_witness :
  roads (parseOSMData (mkData (two_nodes ++ [way_el 30 [1; 2] [("highway", "service")];
                                              primary_way])))
  = omap (roadOf (buildNodes two_nodes))
         (two_nodes ++ [way_el 30 [1; 2] [("highway", "service")]; primary_way])%list.
Proof.
  refine (roads_sorted_input_unchanged
            (mkData (two_nodes ++ [way_el 30 [1; 2] [("highway", "service")];
                                   primary_way])) _).
  vm_compute. repeat constructor; discriminate.
Defined.

(** ** Nodes may stand anywhere *)

Lemma buildNodes_filter_from (els : list Element) (acc : gmap Z GeoPoint) :
  foldl addNode acc els = foldl addNode acc (List.filter isNode els).
Proof.
  revert acc. induction els as [|el els IH]; intros acc; [done|].
  cbn [foldl List.filter]. destruct (isNode el) eqn:Hn.
  - cbn [foldl]. apply IH.
  - rewrite <- IH. f_equal. unfold isNode in Hn. unfold addNode. by rewrite Hn.
Qed.

Lemma categoryOf_node tbl el : isNode el = true -> categoryOf tbl el = None.
Proof.
  unfold isNode, categoryOf. intros Hn. apply String.eqb_eq in Hn. by rewrite Hn.
Qed.

Lemma classifyAll_filter tbl (els : list Element) :
  classifyAll tbl els = classifyAll tbl (List.filter (fun el => negb (isNode el)) els).
Proof.
  induction els as [|el els IH]; [done|].
  simpl List.filter. destruct (isNode el) eqn:Hn; simpl.
  - rewrite classifyAll_cons, classifyElement_category, (categoryOf_node _ _ Hn).
    rewrite <- IH. unfold bappend. simpl. by destruct (classifyAll tbl els).
  - by rewrite !classifyAll_cons, IH.
Qed.

(** X5.  The result depends on the order of the nodes among themselves
    and on the order of the other elements among themselves, not on how
    the two are interleaved: a way may come before the nodes it refers
    to. *)
Theorem node_position_irrelevant (els els' : list Element) :
  List.filter isNode els = List.filter isNode els' ->
  List.filter (fun el => negb (isNode el)) els
  = List.filter (fun el => negb (isNode el)) els' ->
  parseOSMData (mkData els) = parseOSMData (mkData els').
Proof.
  intros Hn Hw. unfold parseOSMData. simpl.
  assert (Htbl : buildNodes els = buildNodes els').
  { unfold buildNodes. by rewrite (buildNodes_filter_from els), Hn,
      <- (buildNodes_filter_from els'). }
  rewrite Htbl.
  by rewrite (classifyAll_filter _ els), Hw, <- (classifyAll_filter _ els').
Qed.

Lemma node_position_irrelevant_witness :
  parseOSMData (mkData (primary_way :: open_stream :: two_nodes))
  = parseOSMData (mkData (two_nodes ++ [primary_way; open_stream])).
Proof.
  refine (node_position_irrelevant (primary_way :: open_stream :: two_nodes)
            (two_nodes ++ [primary_way; open_stream])%list _ _); reflexivity.
Defined.

(** ** One way, at most one geometry *)

Lemma categoryOf_Some_way tbl el c : categoryOf tbl el = Some c -> el_type el = "way".
Proof.
  unfold categoryOf. destruct (String.eqb_spec (el_type el) "way"); done.
Qed.

Lemma classifyAll_count tbl (els : list Element) :
  (length (b_roads (classifyAll tbl els)) + length (b_waterWays (classifyAll tbl els))
   + length (b_waterPolygons (classifyAll tbl els)) + length (b_parks (classifyAll tbl els))
   <= wayCount els)%nat.
Proof.
  unfold wayCount. induction els as [|el els IH]; [simpl; lia|].
  rewrite classifyAll_cons, classifyElement_category. simpl List.filter.
  destruct (categoryOf tbl el) as [c|] eqn:Hc.
  - rewrite (categoryOf_Some_way _ _ _ Hc). simpl.
    destruct c; simpl; rewrite ?length_app; simpl; lia.
  - simpl. destruct (String.eqb (el_type el) "way"); simpl; lia.
Qed.

(** X6.  A way yields at most one geometry and nothing else yields any:
    the four output arrays together hold no more geometries than the
    input has elements of type ['way']. *)
Theorem geometry_count_bounded (data : OsmData) :
  let r := parseOSMData data in
  (length (roads r) + length (waterWays r) + length (waterPolygons r) + length (parks r)
   <= wayCount (elements data))%nat.
Proof.
  intros r. subst r. unfold parseOSMData. simpl.
  rewrite (Permutation_length (array_sort_perm roadPriority _)).
  apply classifyAll_count.
Qed.

(** ** Rings *)

Lemma categoryOf_polygon_closed tbl el c :
  categoryOf tbl el = Some c -> c = CWaterPolygon \/ c = CPark ->
  isClosed (memberIds el) = true.
Proof.
  unfold categoryOf, memberIds.
  destruct (String.eqb (el_type el) "way"); [|done].
  destruct (el_nodes el) as [ids|]; [|done].
  destruct (el_tags el) as [tags|]; [|done]. simpl.
  destruct (length (resolve tbl ids) <? 2)%nat; [done|].
  destruct (roadTagged tags); [intros [= <-] [|]; done|].
  destruct (waterTagged tags).
  { destruct (isClosed ids); [done|]. intros [= <-] [|]; done. }
  destruct (parkTagged tags); [|done]. by destruct (isClosed ids).
Qed.

(** X7.  A water polygon or park whose closing node is in the table is a
    closed ring of points: its first and its last point are the same. *)
Theorem polygon_ring_closed (tbl : gmap Z GeoPoint) (c : Category) (el : Element)
        (s : Shape) (i : Z) :
  c = CWaterPolygon \/ c = CPark ->
  shapeOf tbl c el = Some s ->
  head (memberIds el) = Some i -> is_Some (tbl !! i) ->
  head (shape_coords s) = last (shape_coords s).
Proof.
  intros Hc Hs Hhead [p Hp]. unfold shapeOf in Hs. case_decide as Hcat; [|done].
  injection Hs as <-. simpl.
  pose proof (categoryOf_polygon_closed _ _ _ Hcat Hc) as Hclosed.
  apply isClosed_head_last in Hclosed. rewrite Hhead in Hclosed.
  symmetry in Hclosed. apply last_Some in Hclosed as [ids' Hids].
  rewrite resolve_omap.
  assert (H1 : head (omap (fun id => tbl !! id) (memberIds el)) = Some p).
  { destruct (memberIds el) as [|j ids]; [done|]. simpl in Hhead.
    injection Hhead as ->. simpl. by rewrite Hp. }
  rewrite H1, Hids, omap_app. simpl. rewrite Hp. simpl.
  symmetry. apply last_snoc.
Qed.

Lemma polygon_ring_closed_witness :
  head [mkPoint 52 13; mkPoint (5201 # 100) 13; mkPoint (5201 # 100) (1301 # 100);
        mkPoint 52 13]
  = last [mkPoint 52 13; mkPoint (5201 # 100) 13; mkPoint (5201 # 100) (1301 # 100);
          mkPoint 52 13].
Proof.
  refine (polygon_ring_closed (buildNodes (elements scenario_pond)) CWaterPolygon
            (way_el 15 [1; 2; 3; 1] [("natural", "water")])
            (mkShape [mkPoint 52 13; mkPoint (5201 # 100) 13;
                      mkPoint (5201 # 100) (1301 # 100); mkPoint 52 13])
            1 (or_introl eq_refl) _ eq_refl _).
  - vm_compute. reflexivity.
  - eexists. vm_compute. reflexivity.
Defined.

(** * Further properties of the server loop *)

Section FetchFrame.
Context {World : Type}.
Variable http_post_overpass :
  string -> string -> World -> (JsError + Response OverpassJson) * World.

Lemma attemptResult_inr (o : JsError + Response OverpassJson) (c : Classified) :
  attemptResult o = inr c ->
  exists response d,
    o = inr response /\ ok response = true /\ json response = inr (Graph d) /\
    c = parseOSMData d.
Proof.
  unfold attemptResult. destruct o as [e|response]; [done|].
  destruct (ok response) eqn:Hok; simpl; [|done].
  destruct (json response) as [e|[d|e]] eqn:Hj; try done.
  intros [= <-]. eauto 10.
Qed.

Lemma tryServers_trace (servers : list string) (body : string)
      (lastError : option JsError) (st : State World) :
  exists k,
    (k <= length servers)%nat /\
    fetched (events (snd (tryServers http_post_overpass servers body lastError st)))
    = (fetched (events st) ++ take k servers)%list /\
    currentTheme (snd (tryServers http_post_overpass servers body lastError st))
    = currentTheme st /\
    match fst (tryServers http_post_overpass servers body lastError st) with
    | inr c => (1 <= k)%nat /\ exists d, c = parseOSMData d
    | inl e =>
      k = length servers /\
      exists lastError', e = allFailedError lastError' /\
                         (servers ≠ [] -> is_Some lastError') /\
                         (servers = [] -> lastError' = lastError)
    end.
Proof.
  revert lastError st. induction servers as [|u rest IH]; intros le st.
  - exists 0%nat. simpl. rewrite app_nil_r. repeat split; try done. by exists le.
  - cbn [tryServers]. unfold try_catch.
    pose proof (attempt_spec http_post_overpass u body st) as Hspec.
    destruct (attempt http_post_overpass u body st) as [[e|c] st1] eqn:Hatt.
    + unfold bind, emit. simpl. fold (warned u e st1).
      destruct (IH (Some e) (warned u e st1)) as (k & Hk & Hf & Ht & Hr).
      exists (S k). split; [simpl; lia|]. split; [|split].
      * rewrite Hf, warned_fetched.
        rewrite (attempt_fetched _ _ _ _ _ _ Hatt). simpl. by rewrite <- app_assoc.
      * rewrite Ht. injection Hspec as _ ->. done.
      * destruct (fst (tryServers http_post_overpass rest body (Some e) (warned u e st1)))
          as [e'|c'].
        -- destruct Hr as (-> & le' & -> & Hne & Hnil). split; [done|].
           exists le'. split; [done|]. split; [|done].
           intros _. destruct rest; [rewrite Hnil; eauto|]. by apply Hne.
        -- destruct Hr as [_ Hd]. split; [lia|done].
    + exists 1%nat. simpl. split; [lia|]. split; [|split].
      * rewrite (attempt_fetched _ _ _ _ _ _ Hatt). by rewrite take_0.
      * injection Hspec as _ ->. done.
      * split; [done|]. injection Hspec as Hres _. symmetry in Hres.
        apply attemptResult_inr in Hres as (_ & d & _ & _ & _ & ->). eauto.
Qed.

(** X8.  Whatever the servers answer, [fetchOSMData] calls them in list
    order without calling any of them twice: the calls it makes are the
    first [k] servers of [CONFIG.OVERPASS_SERVERS] for some [k] from 1 to
    3.  It leaves the current theme as it is. *)
Theorem fetchOSMData_calls_prefix (body : string) (st : State World) :
  let st' := snd (fetchOSMData http_post_overpass body st) in
  (exists k, (1 <= k <= 3)%nat /\
             fetched (events st')
             = (fetched (events st) ++ take k CONFIG_OVERPASS_SERVERS)%list) /\
  currentTheme st' = currentTheme st.
Proof.
  intros st'. subst st'. unfold fetchOSMData.
  destruct (tryServers_trace CONFIG_OVERPASS_SERVERS body None st)
    as (k & Hk & Hf & Ht & Hr).
  split; [|done]. exists k. split; [|done].
  destruct (fst (tryServers http_post_overpass CONFIG_OVERPASS_SERVERS body None st)).
  - destruct Hr as [-> _]. simpl. lia.
  - destruct Hr as [? _]. simpl in Hk. lia.
Qed.

End FetchFrame.

(** * Properties of the drawing functions *)

Section DrawingFacts.
Context {Planar : Type}.
Variable project : Q -> Q -> Planar.

Local Abbreviation lineTo := (fun c : GeoPoint => LineTo (project (lat c) (lon c))).

(** With enough fuel the loop visits every point from index [i] on, in
    order. *)
Lemma lineToLoop_drop (fuel : nat) (coords : list GeoPoint) (i : nat) :
  (length coords - i <= fuel)%nat ->
  lineToLoop project fuel coords i = map lineTo (drop i coords).
Proof.
  revert i. induction fuel as [|fuel IH]; intros i Hfuel.
  - simpl. rewrite drop_ge by lia. done.
  - simpl. destruct (Nat.ltb_spec i (length coords)) as [Hlt|Hge].
    + destruct (lookup_lt_is_Some_2 coords i Hlt) as [c Hc]. rewrite Hc.
      rewrite (drop_S _ _ _ Hc). simpl. f_equal. apply IH. lia.
    + by rewrite drop_ge by lia.
Qed.

Lemma tracePath_cons (c0 : GeoPoint) (rest : list GeoPoint) :
  tracePath project (c0 :: rest)
  = BeginPath :: MoveTo (project (lat c0) (lon c0)) :: map lineTo rest.
Proof.
  unfold tracePath. simpl lookup. cbv iota. do 2 f_equal.
  rewrite lineToLoop_drop by (simpl; lia). done.
Qed.

Lemma fillCount_app (a b : list (CanvasOp Planar)) :
  fillCount (a ++ b) = (fillCount a + fillCount b)%nat.
Proof. unfold fillCount. by rewrite List.filter_app, length_app. Qed.

Lemma strokeCount_app (a b : list (CanvasOp Planar)) :
  strokeCount (a ++ b) = (strokeCount a + strokeCount b)%nat.
Proof. unfold strokeCount. by rewrite List.filter_app, length_app. Qed.

Lemma lineWidthsSet_app (a b : list (CanvasOp Planar)) :
  lineWidthsSet (a ++ b) = (lineWidthsSet a ++ lineWidthsSet b)%list.
Proof. unfold lineWidthsSet. apply omap_app. Qed.

Lemma count_tracePath (coords : list GeoPoint) :
  strokeCount (tracePath project coords) = 0%nat /\
  fillCount (tracePath project coords) = 0%nat /\
  lineWidthsSet (tracePath project coords) = [].
Proof.
  destruct coords as [|c0 rest]; [done|]. rewrite tracePath_cons.
  change (BeginPath :: MoveTo (project (lat c0) (lon c0)) :: map lineTo rest)
    with ([BeginPath; MoveTo (project (lat c0) (lon c0))] ++ map lineTo rest)%list.
  rewrite strokeCount_app, fillCount_app, lineWidthsSet_app.
  assert (strokeCount (map lineTo rest) = 0%nat /\ fillCount (map lineTo rest) = 0%nat
          /\ lineWidthsSet (map lineTo rest) = []) as (-> & -> & ->); [|done].
  induction rest as [|c rest IH]; [done|]. exact IH.
Qed.

Lemma drawPolygons_fillCount (polygons : list Shape) (color : JsVal) :
  fillCount (drawPolygons project polygons color)
  = length (List.filter (fun s => (3 <=? length (shape_coords s))%nat) polygons).
Proof.
  unfold drawPolygons.
  change (SetFillStyle color :: concat (map (drawPolygon project) polygons))
    with ([SetFillStyle color] ++ concat (map (drawPolygon project) polygons))%list.
  rewrite fillCount_app. change (fillCount [SetFillStyle color]) with 0%nat.
  induction polygons as [|s polygons IH]; [done|].
  cbn [map concat List.filter]. rewrite fillCount_app. simpl in IH. rewrite IH.
  unfold drawPolygon at 1.
  destruct (Nat.ltb_spec (length (shape_coords s)) 3) as [Hlt|Hge].
  - destruct (Nat.leb_spec 3 (length (shape_coords s))); [lia|]. done.
  - destruct (Nat.leb_spec 3 (length (shape_coords s))); [|lia].
    rewrite fillCount_app.
    pose proof (count_tracePath (shape_coords s)) as (_ & -> & _). done.
Qed.


Lemma drawRoad_counts (theme : Theme) (road : Road) :
  (2 <= length (road_coords road))%nat ->
  strokeCount (drawRoad project theme road) = 1%nat /\
  lineWidthsSet (drawRoad project theme road) = [roadWidth (road_type road)].
Proof.
  intros Hlen. unfold drawRoad.
  destruct (Nat.ltb_spec (length (road_coords road)) 2) as [|_]; [lia|].
  pose proof (count_tracePath (road_coords road)) as (Hs & _ & Hw).
  rewrite !strokeCount_app, !lineWidthsSet_app, Hs, Hw. done.
Qed.

Lemma drawRoads_counts (theme : Theme) (rs : list Road) :
  Forall (fun r => (2 <= length (road_coords r))%nat) rs ->
  strokeCount (drawRoads project theme rs) = length rs /\
  lineWidthsSet (drawRoads project theme rs) = map (fun r => roadWidth (road_type r)) rs.
Proof.
  unfold drawRoads. rewrite strokeCount_app, lineWidthsSet_app.
  change (strokeCount [SetLineCap "round"; SetLineJoin "round"]) with 0%nat.
  change (lineWidthsSet [SetLineCap "round"; SetLineJoin "round"]) with (@nil JsVal).
  induction 1 as [|r rs Hr Hrs [IH1 IH2]]; [done|].
  destruct (drawRoad_counts theme r Hr) as [H1 H2].
  cbn [map concat]. simpl in IH1, IH2.
  rewrite strokeCount_app, lineWidthsSet_app, H1, H2, IH1, IH2. done.
Qed.
End DrawingFacts.


(** ** Road colours and widths *)



Lemma literalLookup_own (own : list (string * JsVal)) (key : string) (v : JsVal) :
  (list_to_map own : gmap string JsVal) !! key = Some v ->
  literalLookup own key = v /\ (key, v) ∈ own.
Proof.
  intros H. unfold literalLookup. rewrite H. split; [done|].
  by apply elem_of_list_to_map_2.
Qed.





Section RoadsOnCanvas.
Context {Planar : Type}.
Variable project : Q -> Q -> Planar.

(** X12.  Every road [parseOSMData] returns is stroked, once, and in
    the order of the [roads] array: [drawRoads] skips none of them, and
    sets for each the width its subtype has in [ROAD_WIDTHS]. *)
Theorem drawRoads_strokes_every_road (theme : Theme) (data : OsmData) :
  let rs := roads (parseOSMData data) in
  strokeCount (drawRoads project theme rs) = length rs /\
  lineWidthsSet (drawRoads project theme rs) = map (fun r => roadWidth (road_type r)) rs.
Proof.
  intros rs. apply drawRoads_counts.
  eapply Forall_impl; [apply parse_roads_invariant|]. by intros r [? _].
Qed.


End RoadsOnCanvas.


(** X14.  [ROAD_WIDTHS[type] || ROAD_WIDTHS.default] is a positive
    number for every road type that is no member of [Object.prototype];
    for a type outside the table it is the default, 0.8.  On the name of
    a member of [Object.prototype] it is that member, not a number. *)
Theorem roadWidth_default (roadType : string) :
  (roadType ∉ objectPrototypeKeys ->
   (exists w, roadWidth roadType = VNumber w /\ (0 < w)%Q) /\
   (roadType ∉ (map fst ROAD_WIDTHS) -> roadWidth roadType = VNumber (8 # 10))) /\
  (roadType ∈ objectPrototypeKeys -> roadWidth roadType = VInherited roadType).
Proof.
  assert (Hown : forall k v, (k, v) ∈ ROAD_WIDTHS ->
                             (k ∉ objectPrototypeKeys) /\ (k ∈ map fst ROAD_WIDTHS) /\
                             truthyVal v = true /\ exists w, v = VNumber w /\ (0 < w)%Q).
  { intros k v Hin. unfold ROAD_WIDTHS in Hin.
    repeat (apply elem_of_cons in Hin as [[= -> ->]|Hin];
            [split; [by apply (bool_decide_unpack _)|];
             split; [by apply (bool_decide_unpack _)|];
             split; [reflexivity|]; eexists; split; [reflexivity|reflexivity]|]).
    by apply elem_of_nil in Hin. }
  assert (Hd : literalLookup ROAD_WIDTHS "default" = VNumber (8 # 10))
    by (vm_compute; reflexivity).
  unfold roadWidth, jsOr. rewrite Hd.
  destruct ((list_to_map ROAD_WIDTHS : gmap string JsVal) !! roadType) as [v|] eqn:E.
  - destruct (literalLookup_own _ _ _ E) as [Hl Hin].
    destruct (Hown _ _ Hin) as (Hnp & Hk & Ht & w & -> & Hw).
    rewrite Hl, Ht. split.
    + intros _. split; [eauto|]. intros Hout. done.
    + intros Hp. by destruct Hnp.
  - unfold literalLookup. rewrite E. split.
    + intros Hnp. rewrite bool_decide_eq_false_2 by done. simpl.
      split; [|done]. eexists. split; reflexivity.
    + intros Hp. by rewrite bool_decide_eq_true_2.
Qed.

Lemma roadWidth_default_witness : roadWidth "track" = VNumber (8 # 10).
Proof.
  refine (proj2 (proj1 (roadWidth_default "track") _) _);
    apply (bool_decide_unpack _); vm_compute; exact I.
Defined.

(** * Colour strings *)

Lemma hexDigitValue_facts (c : ascii) (v : Z) :
  hexDigitValue c = Some v ->
  0 <= v < 16 /\ isAsciiSpace c = false /\
  Ascii.eqb c "-" = false /\ Ascii.eqb c "+" = false /\
  Ascii.eqb c "x" = false /\ Ascii.eqb c "X" = false.
Proof.
  intros H.
  assert (Hne : forall d : ascii, hexDigitValue d = None -> Ascii.eqb c d = false).
  { intros d Hd. destruct (Ascii.eqb_spec c d) as [->|]; [congruence|done]. }
  split; [|split; [|repeat split; by apply Hne]].
  - unfold hexDigitValue in H. set (n := Z.of_nat (nat_of_ascii c)) in *.
    destruct (Z.leb_spec 48 n), (Z.leb_spec n 57), (Z.leb_spec 97 n),
      (Z.leb_spec n 102), (Z.leb_spec 65 n), (Z.leb_spec n 70);
      simpl in H; try discriminate; injection H as <-; lia.
  - unfold hexDigitValue, isAsciiSpace in *. set (n := Z.of_nat (nat_of_ascii c)) in *.
    destruct (Z.leb_spec 48 n), (Z.leb_spec n 57), (Z.leb_spec 97 n),
      (Z.leb_spec n 102), (Z.leb_spec 65 n), (Z.leb_spec n 70);
      simpl in H; try discriminate;
      destruct (Z.leb_spec 9 n), (Z.leb_spec n 13), (Z.eqb_spec n 32); simpl; try done; lia.
Qed.

(** Two hexadecimal digits are read as the number they write. *)
Lemma parseInt16_pair (a b : ascii) (va vb : Z) :
  hexDigitValue a = Some va -> hexDigitValue b = Some vb ->
  parseInt16 (String a (String b EmptyString)) = Some (16 * va + vb).
Proof.
  intros Ha Hb.
  destruct (hexDigitValue_facts a va Ha) as (_ & Hsp & Hm & Hp & _ & _).
  destruct (hexDigitValue_facts b vb Hb) as (_ & _ & _ & _ & Hx & HX).
  unfold parseInt16. cbn [skipSpace]. rewrite Hsp, Hm, Hp. cbn [orb].
  rewrite Hx, HX. cbn [orb]. rewrite andb_false_r. cbn [hexRun].
  rewrite Ha, Hb. simpl. f_equal. lia.
Qed.

Lemma substring_past_end (n m : nat) (s : string) :
  (String.length s <= n)%nat -> String.substring n m s = EmptyString.
Proof.
  revert n. induction s as [|c s IH]; intros n Hn.
  - by destruct n, m.
  - destruct n as [|n]; [simpl in Hn; lia|]. simpl. apply IH. simpl in Hn. lia.
Qed.

(** X15.  On a colour written [#RRGGBB], [hexToRGBA] returns
    [rgba(r, g, b, alpha)] where [r], [g] and [b] are the numbers the
    three pairs of hexadecimal digits write, each between 0 and 255.  The
    first character is not looked at and characters after the seventh
    are ignored.  On a string of five characters or fewer the blue
    component is [NaN]. *)
Theorem hexToRGBA_components (c0 r1 r2 g1 g2 b1 b2 : ascii) (rest : string)
        (vr1 vr2 vg1 vg2 vb1 vb2 alpha : Z) :
  hexDigitValue r1 = Some vr1 -> hexDigitValue r2 = Some vr2 ->
  hexDigitValue g1 = Some vg1 -> hexDigitValue g2 = Some vg2 ->
  hexDigitValue b1 = Some vb1 -> hexDigitValue b2 = Some vb2 ->
  let r := 16 * vr1 + vr2 in
  let g := 16 * vg1 + vg2 in
  let b := 16 * vb1 + vb2 in
  hexToRGBA (String c0 (String r1 (String r2 (String g1 (String g2
               (String b1 (String b2 rest))))))) alpha
  = ("rgba(" ++ decimalDigits r ++ ", " ++ decimalDigits g ++ ", " ++ decimalDigits b
       ++ ", " ++ numberText (Some alpha) ++ ")")%string /\
  (0 <= r <= 255 /\ 0 <= g <= 255 /\ 0 <= b <= 255) /\
  (forall hex : string,
      (String.length hex <= 5)%nat ->
      exists red green,
        hexToRGBA hex alpha
        = ("rgba(" ++ red ++ ", " ++ green ++ ", NaN, " ++ numberText (Some alpha)
             ++ ")")%string).
Proof.
  intros Hr1 Hr2 Hg1 Hg2 Hb1 Hb2 r g b.
  pose proof (hexDigitValue_facts _ _ Hr1) as [? _].
  pose proof (hexDigitValue_facts _ _ Hr2) as [? _].
  pose proof (hexDigitValue_facts _ _ Hg1) as [? _].
  pose proof (hexDigitValue_facts _ _ Hg2) as [? _].
  pose proof (hexDigitValue_facts _ _ Hb1) as [? _].
  pose proof (hexDigitValue_facts _ _ Hb2) as [? _].
  split; [|split; [subst r g b; lia|]].
  - unfold hexToRGBA, slice. cbn [String.substring Nat.sub].
    rewrite substring_0_0.
    rewrite (parseInt16_pair _ _ _ _ Hr1 Hr2), (parseInt16_pair _ _ _ _ Hg1 Hg2),
      (parseInt16_pair _ _ _ _ Hb1 Hb2).
    fold r g b. unfold numberText at 1 2 3.
    destruct (Z.ltb_spec r 0), (Z.ltb_spec g 0), (Z.ltb_spec b 0);
      try (subst r g b; lia). done.
  - intros hex Hlen. unfold hexToRGBA.
    exists (numberText (parseInt16 (slice 1 3 hex))),
           (numberText (parseInt16 (slice 3 5 hex))).
    unfold slice at 3. by rewrite substring_past_end.
Qed.

Lemma hexToRGBA_components_witness :
  hexToRGBA "#C0ffEe" 0 = "rgba(192, 255, 238, 0)".
Proof.
  refine (proj1 (hexToRGBA_components "#" "C" "0" "f" "f" "E" "e" EmptyString
                   12 0 15 15 14 14 0 eq_refl eq_refl eq_refl eq_refl eq_refl eq_refl)).
Defined.

(** * Geocoding *)

Section GeocodeFacts.
Context {World Num : Type}.
Variable encodeURIComponent : string -> string.
Variable parseFloat : string -> Num.
Variable http_get_nominatim :
  string -> World -> (JsError + Response (option (list GeocodeHit))) * World.

Local Abbreviation geocode' := (geocode encodeURIComponent parseFloat http_get_nominatim).

(** [geocode] makes one call and changes nothing else. *)
Lemma geocode_frame (city country : string) (st : State World) :
  events (snd (geocode' city country st))
  = (events st ++ [EvFetch (geocodeUrl encodeURIComponent city country)])%list /\
  currentTheme (snd (geocode' city country st)) = currentTheme st /\
  world (snd (geocode' city country st))
  = snd (http_get_nominatim (geocodeUrl encodeURIComponent city country) (world st)).
Proof.
  unfold geocode, bind, fetchNominatim, await, throw, ret.
  destruct (http_get_nominatim _ (world st)) as [[e|response] w]; simpl; [done|].
  destruct (ok response); simpl; [|done].
  destruct (json response) as [e|[[|hit hits]|]]; done.
Qed.

(** X16.  [geocode] succeeds exactly when the call resolves with a
    success status and a body that is a non-empty array, and then the
    location is read off the first hit alone.  With [null] or an empty
    array it throws [Could not find location: city, country]; with a
    non-success status it throws [Geocoding request failed (status)]; a
    rejected call or an unreadable body throws the error it came with.
    In every case exactly one call is made. *)
Theorem geocode_outcomes (city country : string) (st : State World) :
  let url := geocodeUrl encodeURIComponent city country in
  let answer := fst (http_get_nominatim url (world st)) in
  let result := fst (geocode' city country st) in
  (forall location,
      result = inr location <->
      exists response hit hits,
        answer = inr response /\ ok response = true /\
        json response = inr (Some (hit :: hits)) /\
        location = mkLocation (parseFloat (hit_lat hit)) (parseFloat (hit_lon hit))
                              (hit_display_name hit)) /\
  (forall response,
      answer = inr response -> ok response = true ->
      json response = inr None \/ json response = inr (Some []) ->
      result = inl (mkError ("Could not find location: " ++ city ++ ", " ++ country))) /\
  (forall response,
      answer = inr response -> ok response = false ->
      result = inl (mkError ("Geocoding request failed ("
                               ++ decimalDigits (status response) ++ ")"))) /\
  (forall e, answer = inl e -> result = inl e) /\
  (forall response e,
      answer = inr response -> ok response = true -> json response = inl e ->
      result = inl e) /\
  events (snd (geocode' city country st)) = (events st ++ [EvFetch url])%list.
Proof.
  intros url answer result. subst url answer result.
  split; [|split; [|split; [|split; [|split]]]]; [..|apply geocode_frame];
    unfold geocode, bind, fetchNominatim, await, throw, ret;
    destruct (http_get_nominatim _ (world st)) as [[e|response] w]; simpl.
  - intros location. split; [done|]. by intros (r & hit & hits & [=] & _).
  - intros location. destruct (ok response) eqn:Hok; simpl.
    + destruct (json response) as [e|[[|hit hits]|]] eqn:Hj; simpl.
      * split; [done|]. intros (r & h & hs & [= <-] & _ & Hj' & _). congruence.
      * split; [done|]. intros (r & h & hs & [= <-] & _ & Hj' & _). congruence.
      * split.
        -- intros [= <-]. exists response, hit, hits. by rewrite Hj.
        -- intros (r & h & hs & [= <-] & _ & Hj' & ->).
           rewrite Hj in Hj'. by injection Hj' as <- <-.
      * split; [done|]. intros (r & h & hs & [= <-] & _ & Hj' & _). congruence.
    + split; [done|]. intros (r & h & hs & [= <-] & Hok' & _). congruence.
  - done.
  - intros r [= <-] Hok [Hj|Hj]; rewrite Hok; simpl; by rewrite Hj.
  - done.
  - intros r [= <-] Hok. by rewrite Hok.
  - by intros e' [= <-].
  - done.
  - done.
  - intros r e' [= <-] Hok Hj. rewrite Hok. simpl. by rewrite Hj.
Qed.
End GeocodeFacts.

Lemma geocode_outcomes_witness :
  fst (geocode (fun s => s) (fun s => s) scripted "Atlantis" "Nowhere"
               (initialState [inr (mkResponse true 200 (inr (Some [])))]))
  = inl (mkError "Could not find location: Atlantis, Nowhere").
Proof.
  refine (proj1 (proj2 (geocode_outcomes (fun s => s) (fun s => s) scripted
                          "Atlantis" "Nowhere"
                          (initialState [inr (mkResponse true 200 (inr (Some [])))])))
                (mkResponse true 200 (inr (Some []))) eq_refl eq_refl (or_intror eq_refl)).
Defined.

(** * The download name *)

Lemma replaceSpaceRuns_from_nospace (inRun : bool) (s : list N) :
  Forall (fun u => isRegexSpace u = false) (replaceSpaceRuns_from inRun s).
Proof.
  revert inRun. induction s as [|u s IH]; intros inRun; [constructor|].
  simpl. destruct (isRegexSpace u) eqn:Hu.
  - destruct inRun; simpl; [apply IH|]. constructor; [done|apply IH].
  - constructor; [done|apply IH].
Qed.

Lemma replaceSpaceRuns_from_length (inRun : bool) (s : list N) :
  (length (replaceSpaceRuns_from inRun s) <= length s)%nat.
Proof.
  revert inRun. induction s as [|u s IH]; intros inRun; [done|].
  simpl. destruct (isRegexSpace u).
  - destruct inRun; simpl; [specialize (IH true); lia|].
    specialize (IH true). lia.
  - simpl. specialize (IH false). lia.
Qed.

Lemma replaceSpaceRuns_from_id (s : list N) :
  Forall (fun u => isRegexSpace u = false) s -> replaceSpaceRuns_from false s = s.
Proof.
  induction 1 as [|u s Hu Hs IH]; [done|]. simpl. by rewrite Hu, IH.
Qed.

(** X17.  The download name is the city slug, an underscore, the theme
    name, an underscore, the time stamp and [.png].  The slug holds no
    white space, is no longer than the lower-cased city, and is the
    lower-cased city itself when that holds no white space.  The time
    stamp is at most 19 code units long, 19 when the ISO string has that
    many, and holds neither a colon nor a full stop. *)
Theorem downloadName_shape (toLowerCase : list N -> list N)
        (lastGeneratedCity themeName isoNow : list N) :
  exists citySlug timestamp,
    downloadName toLowerCase lastGeneratedCity themeName isoNow
    = (citySlug ++ units "_" ++ themeName ++ units "_" ++ timestamp ++ units ".png")%list /\
    Forall (fun u => isRegexSpace u = false) citySlug /\
    (length citySlug <= length (toLowerCase lastGeneratedCity))%nat /\
    (Forall (fun u => isRegexSpace u = false) (toLowerCase lastGeneratedCity) ->
     citySlug = toLowerCase lastGeneratedCity) /\
    length timestamp = (19 `min` length isoNow)%nat /\
    Forall (fun u => u ≠ 58%N /\ u ≠ 46%N) timestamp.
Proof.
  exists (replaceSpaceRuns (toLowerCase lastGeneratedCity)), (take 19 (dashColonDot isoNow)).
  split; [done|]. split; [apply replaceSpaceRuns_from_nospace|].
  split; [apply replaceSpaceRuns_from_length|].
  split; [apply replaceSpaceRuns_from_id|]. split.
  - rewrite length_take. unfold dashColonDot. by rewrite length_map.
  - apply Forall_take. unfold dashColonDot. apply Forall_forall.
    intros u Hu. apply list_elem_of_fmap in Hu as (v & -> & _).
    destruct (N.eqb_spec v 58) as [->|H58]; simpl; [done|].
    destruct (N.eqb_spec v 46) as [->|H46]; simpl; done.
Qed.

(** * Rendering and the submit handler *)

Section HandlerFacts.
Context {World Num Planar Overlay : Type}.
Variable trim : string -> string.
Variable encodeURIComponent : string -> string.
Variable parseFloat : string -> Num.
Variable http_get_theme : string -> World -> (JsError + Response Theme) * World.
Variable http_get_nominatim :
  string -> World -> (JsError + Response (option (list GeocodeHit))) * World.
Variable http_post_overpass :
  string -> string -> World -> (JsError + Response OverpassJson) * World.
Variable createProjection : Num -> Num -> Num -> Q -> Q -> (Q -> Q -> Planar).
Variable overpassBody : Num -> Num -> Num -> string.
Variable drawOverlays : Theme -> string -> string -> Num -> Num -> list Overlay * option JsError.
Variable nullThemeError : JsError.

Local Abbreviation renderPoster' :=
  (renderPoster http_post_overpass createProjection overpassBody drawOverlays nullThemeError).
Local Abbreviation onSubmit' :=
  (onSubmit trim encodeURIComponent parseFloat http_get_theme http_get_nominatim
            http_post_overpass createProjection overpassBody drawOverlays nullThemeError).

(** The state in which [renderPoster] calls [fetchOSMData]. *)
Local Abbreviation beforeFetch := (fun st : State World =>
  mkState (world st) (currentTheme st)
          (events st ++ [EvLoadingText "Fetching map data..."])).

Lemma fetchOSMData_theme (body : string) (st : State World) :
  currentTheme (snd (fetchOSMData http_post_overpass body st)) = currentTheme st.
Proof.
  unfold fetchOSMData.
  by destruct (tryServers_trace http_post_overpass CONFIG_OVERPASS_SERVERS body None st)
    as (k & _ & _ & Ht & _).
Qed.

(** A computation that leaves the page and the two variables alone. *)
Local Abbreviation keepsPage := (fun (A : Type) (m : AppM World Planar Overlay A) =>
  forall a, ui (snd (m a)) = ui a /\
            lastGeneratedCity (snd (m a)) = lastGeneratedCity a /\
            lastGeneratedCountry (snd (m a)) = lastGeneratedCountry a).

Lemma keepsPage_bind {A B} (m : AppM World Planar Overlay A)
      (k : A -> AppM World Planar Overlay B) :
  keepsPage A m -> (forall x, keepsPage B (k x)) -> keepsPage B (abind m k).
Proof.
  intros Hm Hk a. unfold abind. specialize (Hm a).
  destruct (m a) as [[e|x] a1]; simpl in *; [done|].
  destruct (Hk x a1) as (-> & -> & ->). done.
Qed.

Lemma keepsPage_lift {A} (m : M World A) : keepsPage A (lift m).
Proof. intros a. unfold lift. by destruct (m (core a)). Qed.

Lemma keepsPage_getCurrentTheme : keepsPage Theme (getCurrentTheme nullThemeError).
Proof. intros a. unfold getCurrentTheme. by destruct (currentTheme (core a)). Qed.

(** [renderPoster] touches the canvas, the network and the console, and
    nothing else. *)
Lemma renderPoster_frame city country lat lon radius :
  keepsPage unit (renderPoster' city country lat lon radius).
Proof.
  unfold renderPoster, clearCanvas.
  repeat first
    [ apply keepsPage_bind; [|intros ?]
    | apply keepsPage_lift
    | apply keepsPage_getCurrentTheme
    | (intros a; by repeat split)
    | (intros a;
       match goal with
       | |- context [snd (drawOverlays ?t city country lat lon)] =>
         by destruct (snd (drawOverlays t city country lat lon))
       end) ].
Qed.

(** X18.  [renderPoster] with no theme loaded throws before it calls a
    server or draws.  With a theme loaded it fills the background first;
    if [fetchOSMData] then throws, [renderPoster] throws the same error
    and the background fill is all that reached the canvas. *)
Theorem renderPoster_failure city country lat lon radius (a : App World Planar Overlay) :
  (currentTheme (core a) = None ->
   renderPoster' city country lat lon radius a = (inl nullThemeError, a)) /\
  (forall theme e,
      currentTheme (core a) = Some theme ->
      fst (fetchOSMData http_post_overpass (overpassBody lat lon radius)
                        (beforeFetch (core a))) = inl e ->
      fst (renderPoster' city country lat lon radius a) = inl e /\
      canvas (snd (renderPoster' city country lat lon radius a))
      = (canvas a ++ [inl (SetFillStyle (themeValue theme "bg"));
                      inl (FillRect 0 0 CONFIG_CANVAS_WIDTH CONFIG_CANVAS_HEIGHT)])%list).
Proof.
  split.
  - intros Ht. unfold renderPoster, clearCanvas, abind, getCurrentTheme.
    by rewrite Ht.
  - intros theme e Ht Hf.
    unfold renderPoster, clearCanvas, abind, getCurrentTheme, draw, lift, emit.
    rewrite Ht. simpl.
    destruct (fetchOSMData http_post_overpass _ _) as [[e'|data] c]; simpl in *; [|done].
    by injection Hf as ->.
Qed.

(** X19.  When [fetchOSMData] returns, [renderPoster] draws the layers in
    one fixed order on top of the background: all water polygons, then
    all water lines, then all parks, then all roads, then the overlays;
    every layer uses the theme that was current when rendering began. *)
Theorem renderPoster_layers city country lat lon radius (a : App World Planar Overlay)
        (theme : Theme) (data : Classified) :
  currentTheme (core a) = Some theme ->
  fst (fetchOSMData http_post_overpass (overpassBody lat lon radius)
                    (beforeFetch (core a))) = inr data ->
  let project :=
      createProjection lat lon radius CONFIG_CANVAS_WIDTH CONFIG_CANVAS_HEIGHT in
  canvas (snd (renderPoster' city country lat lon radius a))
  = (canvas a
       ++ map inl ([SetFillStyle (themeValue theme "bg");
                    FillRect 0 0 CONFIG_CANVAS_WIDTH CONFIG_CANVAS_HEIGHT]
                   ++ drawPolygons project (waterPolygons data) (themeValue theme "water")
                   ++ drawWaterways project (waterWays data) (themeValue theme "water")
                   ++ drawPolygons project (parks data) (themeValue theme "parks")
                   ++ drawRoads project theme (roads data))
       ++ map inr (fst (drawOverlays theme city country lat lon)))%list /\
  fst (renderPoster' city country lat lon radius a)
  = match snd (drawOverlays theme city country lat lon) with
    | Some e => inl e
    | None => inr tt
    end.
Proof.
  intros Ht Hf project.
  unfold renderPoster, clearCanvas, abind, getCurrentTheme, draw, drawOver, lift, emit,
    athrow, aret.
  rewrite Ht. simpl.
  pose proof (fetchOSMData_theme (overpassBody lat lon radius) (beforeFetch (core a))) as Hth.
  destruct (fetchOSMData http_post_overpass _ _) as [[e|data'] c]; simpl in *; [done|].
  injection Hf as ->. rewrite Hth, Ht. simpl. fold project.
  split.
  - unfold drawRoads.
    destruct (snd (drawOverlays theme city country lat lon)); simpl;
      repeat (progress (rewrite ?map_app, <- ?app_assoc; simpl)); done.
  - by destruct (snd (drawOverlays theme city country lat lon)).
Qed.

(** [loadTheme] returns a theme, makes it the current one, and fetches
    one file. *)
Lemma loadTheme_total (themeName : string) (st : State World) :
  exists theme,
    fst (loadTheme http_get_theme themeName st) = inr theme /\
    currentTheme (snd (loadTheme http_get_theme themeName st)) = Some theme /\
    fetched (events (snd (loadTheme http_get_theme themeName st)))
    = (fetched (events st) ++ [("themes/" ++ themeName ++ ".json")%string])%list.
Proof.
  unfold loadTheme, try_catch, bind, fetchTheme, emit, setCurrentTheme, ret, throw, await.
  destruct (http_get_theme _ (world st)) as [[e|response] w]; simpl.
  - exists fallbackTheme. rewrite !fetched_app. simpl. by rewrite app_nil_r.
  - destruct (ok response); simpl.
    + destruct (json response) as [e|theme]; simpl.
      * exists fallbackTheme. rewrite !fetched_app. simpl. by rewrite app_nil_r.
      * exists theme. by rewrite fetched_app.
    + exists fallbackTheme. rewrite !fetched_app. simpl. by rewrite app_nil_r.
Qed.

(** The state of the network and the console when the handler calls
    [geocode]. *)
Local Abbreviation beforeGeocode := (fun (themeName : string) (st : State World) =>
  snd (emit (EvLoadingText "Finding location...")
         (snd (loadTheme http_get_theme themeName
                 (snd (emit (EvLoadingText "Loading theme...") st)))))).

(** The try block of the handler, evaluated up to the call of
    [renderPoster]. *)
Lemma onSubmit_unfold cityInput countryInput themeName radius
      (a : App World Planar Overlay) :
  trim cityInput ≠ EmptyString -> trim countryInput ≠ EmptyString ->
  let city := trim cityInput in
  let country := trim countryInput in
  let busy := mkUi EmptyString "status " false true true in
  let c2 := beforeGeocode themeName (core a) in
  let g := geocode encodeURIComponent parseFloat http_get_nominatim city country c2 in
  let failed e (a1 : App World Planar Overlay) :=
      (inr tt,
       mkApp (mkState (world (core a1)) (currentTheme (core a1))
                      (events (core a1) ++ [EvConsoleError "Error generating poster:" e]))
             (mkUi ("Error: " ++ message e) "status error" true false
                   (downloadDisabled (ui a1)))
             (canvas a1) (lastGeneratedCity a1) (lastGeneratedCountry a1)) in
  onSubmit' cityInput countryInput themeName radius a
  = match fst g with
    | inl e =>
      failed e (mkApp (snd g) busy (canvas a) (lastGeneratedCity a) (lastGeneratedCountry a))
    | inr location =>
      let a2 := mkApp (snd g)
                      (mkUi ("Found: " ++ loc_displayName location) "status loading"
                            false true true)
                      (canvas a) (lastGeneratedCity a) (lastGeneratedCountry a) in
      let r := renderPoster' city country (loc_lat location) (loc_lon location) radius a2 in
      match fst r with
      | inl e => failed e (snd r)
      | inr _ =>
        (inr tt,
         mkApp (core (snd r))
               (mkUi ("Poster generated for " ++ city ++ ", " ++ country) "status success"
                     true false false)
               (canvas (snd r)) city country)
      end
    end.
Proof.
  intros Hcity Hcountry city country busy c2 g failed.
  unfold onSubmit. fold city country.
  destruct (String.eqb_spec city EmptyString) as [|_]; [done|].
  destruct (String.eqb_spec country EmptyString) as [|_]; [done|].
  cbn [orb]. unfold try_catch_finally, abind, showLoading, setDownloadDisabled, setStatus,
    setLastGenerated, modifyUi, lift. simpl.
  destruct (loadTheme_total themeName
              (snd (emit (EvLoadingText "Loading theme...") (core a)))) as (theme & Hth & _).
  subst g c2. simpl in *.
  destruct (loadTheme http_get_theme themeName _) as [rt c1]. simpl in *. subst rt.
  destruct (geocode encodeURIComponent parseFloat http_get_nominatim city country _)
    as [[e|location] c3]; simpl; [done|].
  pose proof (renderPoster_frame city country (loc_lat location) (loc_lon location) radius
                (mkApp c3 (mkUi ("Found: " ++ loc_displayName location) "status loading"
                                false true true)
                       (canvas a) (lastGeneratedCity a) (lastGeneratedCountry a)))
    as (Hui & Hc1 & Hc2).
  destruct (renderPoster' city country (loc_lat location) (loc_lon location) radius _)
    as [[e|[]] a3]; simpl in *.
  - reflexivity.
  - reflexivity.
Qed.

(** X20.  When the city or the country is empty after trimming, the
    handler writes [Please enter both city and country] to the status
    line, as an error, and does nothing else: no call, no drawing, the
    overlay and the buttons as they were. *)
Theorem onSubmit_validation cityInput countryInput themeName radius
        (a : App World Planar Overlay) :
  trim cityInput = EmptyString \/ trim countryInput = EmptyString ->
  onSubmit' cityInput countryInput themeName radius a
  = (inr tt,
     mkApp (core a)
           (mkUi "Please enter both city and country" "status error"
                 (loadingHidden (ui a)) (generateDisabled (ui a)) (downloadDisabled (ui a)))
           (canvas a) (lastGeneratedCity a) (lastGeneratedCountry a)).
Proof.
  intros Hempty. unfold onSubmit.
  assert (Hor : String.eqb (trim cityInput) EmptyString
                || String.eqb (trim countryInput) EmptyString = true).
  { destruct Hempty as [->| ->]; [done|]. by rewrite orb_true_r. }
  by rewrite Hor.
Qed.

(** X21.  With a city and a country, the handler never throws, and when
    it is done the loading overlay is hidden and the generate button
    enabled, whatever happened in between.  Either the poster was
    generated: the download button is enabled, the status line says so
    and the two variables hold the city and the country.  Or some step
    threw an error [e]: the download button is disabled, the status line
    reads [Error: ] and the message of [e], the error was written to the
    console, and the two variables are as they were. *)
Theorem onSubmit_outcome cityInput countryInput themeName radius
        (a : App World Planar Overlay) :
  trim cityInput ≠ EmptyString -> trim countryInput ≠ EmptyString ->
  let city := trim cityInput in
  let country := trim countryInput in
  let a' := snd (onSubmit' cityInput countryInput themeName radius a) in
  fst (onSubmit' cityInput countryInput themeName radius a) = inr tt /\
  loadingHidden (ui a') = true /\ generateDisabled (ui a') = false /\
  ((downloadDisabled (ui a') = false /\
    statusText (ui a') = ("Poster generated for " ++ city ++ ", " ++ country)%string /\
    statusClass (ui a') = "status success" /\
    lastGeneratedCity a' = city /\ lastGeneratedCountry a' = country) \/
   (exists e,
       downloadDisabled (ui a') = true /\
       statusText (ui a') = ("Error: " ++ message e)%string /\
       statusClass (ui a') = "status error" /\
       last (events (core a')) = Some (EvConsoleError "Error generating poster:" e) /\
       lastGeneratedCity a' = lastGeneratedCity a /\
       lastGeneratedCountry a' = lastGeneratedCountry a)).
Proof.
  intros Hcity Hcountry city country a'. subst a'.
  rewrite (onSubmit_unfold _ _ themeName radius a Hcity Hcountry). fold city country.
  destruct (fst (geocode _ _ _ city country _)) as [e|location]; simpl.
  - repeat split. right. exists e. repeat split. apply last_snoc.
  - match goal with
    | |- context [renderPoster' city country ?la ?lo radius ?a2] =>
      pose proof (renderPoster_frame city country la lo radius a2) as (Hui & Hc1 & Hc2);
        destruct (renderPoster' city country la lo radius a2) as [[e|u] a3]
    end; simpl in *.
    + repeat split. right. exists e. rewrite Hui, Hc1, Hc2. repeat split. apply last_snoc.
    + repeat split. by left.
Qed.

(** X22.  When geocoding fails, no Overpass server is called and the
    canvas is not touched: the only calls of the run are the one for the
    theme file and the one to the geocoder, and the status line shows
    the geocoding error. *)
Theorem onSubmit_geocode_failure cityInput countryInput themeName radius
        (a : App World Planar Overlay) (e : JsError) :
  trim cityInput ≠ EmptyString -> trim countryInput ≠ EmptyString ->
  let city := trim cityInput in
  let country := trim countryInput in
  fst (geocode encodeURIComponent parseFloat http_get_nominatim city country
               (beforeGeocode themeName (core a))) = inl e ->
  let a' := snd (onSubmit' cityInput countryInput themeName radius a) in
  canvas a' = canvas a /\
  fetched (events (core a'))
  = (fetched (events (core a))
       ++ [("themes/" ++ themeName ++ ".json")%string;
           geocodeUrl encodeURIComponent city country])%list /\
  statusText (ui a') = ("Error: " ++ message e)%string.
Proof.
  intros Hcity Hcountry city country Hg a'. subst a'.
  rewrite (onSubmit_unfold _ _ themeName radius a Hcity Hcountry). fold city country.
  pose proof (geocode_frame encodeURIComponent parseFloat http_get_nominatim city country
                (beforeGeocode themeName (core a))) as (Hev & _ & _).
  destruct (geocode _ _ _ city country _) as [[e'|location] c3]; simpl in *; [|done].
  injection Hg as ->. split; [done|]. split; [|done].
  rewrite fetched_app, Hev, !fetched_app. simpl. rewrite !app_nil_r.
  destruct (loadTheme_total themeName
              (snd (emit (EvLoadingText "Loading theme...") (core a)))) as (_ & _ & _ & Hf).
  simpl in Hf. rewrite Hf, fetched_app. simpl. rewrite app_nil_r.
  by rewrite <- app_assoc.
Qed.
End HandlerFacts.

(** ** Worked runs of the handler *)

Lemma renderPoster_failure_witness :
  demoRender "Berlin" "Germany" "52.5" "13.4" "10000" (freshPage goodDay)
  = (inl (mkError "currentTheme is null"), freshPage goodDay).
Proof.
  refine (proj1 (renderPoster_failure script_post_overpass
                   (fun _ _ _ _ _ la lo => (la, lo)) (fun _ _ _ => "data=q")
                   (fun _ _ _ _ _ => ([], None)) (mkError "currentTheme is null")
                   "Berlin" "Germany" "52.5" "13.4" "10000" (freshPage goodDay)) eq_refl).
Defined.

Lemma renderPoster_layers_witness :
  fst (demoRender "Berlin" "Germany" "52.5" "13.4" "10000"
         (mkApp (mkState goodDay (Some fallbackTheme) [])
                (mkUi EmptyString "status" true false true) [] EmptyString EmptyString))
  = inr tt.
Proof.
  refine (proj2 (renderPoster_layers script_post_overpass
                   (fun _ _ _ _ _ la lo => (la, lo)) (fun _ _ _ => "data=q")
                   (fun _ _ _ _ _ => ([], None)) (mkError "currentTheme is null")
                   "Berlin" "Germany" "52.5" "13.4" "10000"
                   (mkApp (mkState goodDay (Some fallbackTheme) [])
                          (mkUi EmptyString "status" true false true) []
                          EmptyString EmptyString)
                   fallbackTheme (parseOSMData scenario_primary) eq_refl eq_refl)).
Defined.

Lemma onSubmit_validation_witness :
  statusText (ui (snd (demoSubmit EmptyString "Germany" "noir" "10000" (freshPage goodDay))))
  = "Please enter both city and country".
Proof.
  unfold demoSubmit.
  rewrite (onSubmit_validation (fun s => s) (fun s => s) (fun s => s)
             script_get_theme script_get_nominatim script_post_overpass
             (fun _ _ _ _ _ la lo => (la, lo)) (fun _ _ _ => "data=q")
             (fun _ _ _ _ _ => ([], None)) (mkError "currentTheme is null")
             EmptyString "Germany" "noir" "10000" (freshPage goodDay) (or_introl eq_refl)).
  reflexivity.
Defined.

Lemma onSubmit_outcome_witness :
  fst (demoSubmit "Berlin" "Germany" "noir" "10000" (freshPage goodDay)) = inr tt.
Proof.
  refine (proj1 (onSubmit_outcome (fun s => s) (fun s => s) (fun s => s)
                   script_get_theme script_get_nominatim script_post_overpass
                   (fun _ _ _ _ _ la lo => (la, lo)) (fun _ _ _ => "data=q")
                   (fun _ _ _ _ _ => ([], None)) (mkError "currentTheme is null")
                   "Berlin" "Germany" "noir" "10000" (freshPage goodDay) _ _));
    discriminate.
Defined.

Lemma onSubmit_geocode_failure_witness :
  canvas (snd (demoSubmit "Atlantis" "Nowhere" "noir" "10000" (freshPage nowhere))) = [].
Proof.
  refine (proj1 (onSubmit_geocode_failure (fun s => s) (fun s => s) (fun s => s)
                   script_get_theme script_get_nominatim script_post_overpass
                   (fun _ _ _ _ _ la lo => (la, lo)) (fun _ _ _ => "data=q")
                   (fun _ _ _ _ _ => ([], None)) (mkError "currentTheme is null")
                   "Atlantis" "Nowhere" "noir" "10000" (freshPage nowhere)
                   (mkError "Could not find location: Atlantis, Nowhere") _ _ eq_refl));
    discriminate.
Defined.

(** A run in which everything answers: the page at the end and the
    operations on the canvas. *)
Example demoSubmit_goodDay :
  let a' := snd (demoSubmit "Berlin" "Germany" "noir" "10000" (freshPage goodDay)) in
  ui a' = mkUi "Poster generated for Berlin, Germany" "status success" true false false /\
  lastGeneratedCity a' = "Berlin" /\
  canvas a'
  = map inl
        [SetFillStyle (VString "#FFFFFF"); FillRect 0 0 900 1200;
         SetFillStyle (VString "#C0C0C0");
         SetStrokeStyle (VString "#C0C0C0"); SetLineWidth (VNumber 2);
         SetLineCap "round"; SetLineJoin "round";
         SetFillStyle (VString "#F0F0F0");
         SetLineCap "round"; SetLineJoin "round";
         SetStrokeStyle (VString "#1A1A1A"); SetLineWidth (VNumber (25 # 10));
         BeginPath; MoveTo (52%Q, 13%Q); LineTo (5201 # 100, 1301 # 100); Stroke] /\
  fetched (events (core a'))
  = ["themes/noir.json";
     "https://nominatim.openstreetmap.org/search?q=Berlin, Germany&format=json&limit=1";
     "https://overpass-api.de/api/interpreter"].
Proof. vm_compute. repeat split. Qed.

(** A run in which no Overpass server answers: the background is
    filled, the error is shown, the download stays disabled. *)
Example demoSubmit_overpassDown :
  let a' := snd (demoSubmit "Berlin" "Germany" "noir" "10000" (freshPage overpassDown)) in
  ui a' = mkUi "Error: Failed to fetch map data. Please try again in a moment. (Failed to fetch)"
               "status error" true false true /\
  canvas a' = map inl [SetFillStyle (VString "#FFFFFF"); FillRect 0 0 900 1200] /\
  lastGeneratedCity a' = EmptyString.
Proof. vm_compute. repeat split. Qed.

(** * Water on the canvas *)

Section WaterOnCanvas.
Context {Planar : Type}.
Variable project : Q -> Q -> Planar.

Lemma drawWaterways_counts (color : JsVal) (ways : list Shape) :
  Forall (fun s => (2 <= length (shape_coords s))%nat) ways ->
  strokeCount (drawWaterways project ways color) = length ways.
Proof.
  unfold drawWaterways. rewrite strokeCount_app.
  change (strokeCount [SetStrokeStyle color; SetLineWidth (VNumber 2);
                       SetLineCap "round"; SetLineJoin "round"]) with 0%nat.
  induction 1 as [|s ways Hs Hways IH]; [done|].
  cbn [map concat]. rewrite strokeCount_app. simpl in IH. rewrite IH.
  unfold drawWaterway.
  destruct (Nat.ltb_spec (length (shape_coords s)) 2) as [|_]; [lia|].
  rewrite strokeCount_app.
  pose proof (count_tracePath project (shape_coords s)) as (-> & _ & _). done.
Qed.

(** X23.  Every water line [parseOSMData] returns is stroked, once: the
    guard of [drawWaterways] against lines of fewer than two points
    never fires on them.  A closed way of two resolved points, however,
    is returned as a water polygon or a park and then skipped by
    [drawPolygons], which fills those with three or more points only. *)
Theorem water_lines_all_stroked (data : OsmData) (color : JsVal) :
  strokeCount (drawWaterways project (waterWays (parseOSMData data)) color)
  = length (waterWays (parseOSMData data)) /\
  fillCount (drawPolygons project (waterPolygons (parseOSMData data)) color)
  = length (List.filter (fun s => (3 <=? length (shape_coords s))%nat)
                        (waterPolygons (parseOSMData data))) /\
  (exists data',
      length (waterPolygons (parseOSMData data')) = 1%nat /\
      fillCount (drawPolygons project (waterPolygons (parseOSMData data')) color) = 0%nat).
Proof.
  split; [|split].
  - apply drawWaterways_counts.
    destruct (classifyAll_shapes (buildNodes (elements data)) (elements data)) as (H1 & _).
    change (waterWays (parseOSMData data))
      with (b_waterWays (classifyAll (buildNodes (elements data)) (elements data))).
    rewrite H1. apply Forall_forall. intros s Hs.
    apply list_elem_of_omap in Hs as (el & _ & Hel). by eapply shapeOf_points.
  - apply drawPolygons_fillCount.
  - exists (mkData [node_el 1 52 13; way_el 16 [1; 1] [("natural", "water")]]).
    split; vm_compute; reflexivity.
Qed.
End WaterOnCanvas.
